(** * Verification of [langchain_core/runnables/utils.py]

    A shallow embedding of the accumulator ([AddableDict], [add], [aadd]),
    of the bounded executor ([gated_coro], [gather_with_concurrency]) and of
    the run-log translator ([as_event_stream]), with the properties the
    specification states about them.

    Python values are embedded as a small universe of JSON-like values,
    exceptions as an error type, the asynchronous generator as a function
    that returns the events it yields together with the way it stops. *)

From Stdlib Require Import String Ascii List ZArith Bool Lia Arith.
From Stdlib Require Import Sorted Permutation.
Import ListNotations.
Local Open Scope string_scope.
Local Open Scope list_scope.

(* ===================================================================== *)
(** ** Python values *)
(* ===================================================================== *)

(** The values that travel through the module: [None], booleans, integers,
    strings, lists and dictionaries with string keys.  A dictionary keeps its
    entries in insertion order, as a Python [dict] does; the order decides
    which key of a loop over the dictionary raises first. *)
#[local] Set Warnings "-register-all".

Inductive value : Type :=
| VNone
| VBool (b : bool)
| VInt (z : Z)
| VStr (s : string)
| VList (l : list value)
| VDict (d : list (string * value)).

Definition dict : Type := list (string * value).

(** The exceptions the code can raise.  [AssertionError] carries the two
    holes of its message; [PatchError] stands for the failures of the patch
    library. *)
Inductive exn : Type :=
| TypeError
| KeyError (key : string)
| IndexError
| AttributeError
| ValueError
| AssertionError (num_chunks : nat) (name : value)
| PatchError.

(** A computation that returns or raises. *)
Definition M (A : Type) : Type := (exn + A)%type.

Definition ret {A} (a : A) : M A := inr a.
Definition raise {A} (e : exn) : M A := inl e.
Definition bind {A B} (m : M A) (k : A -> M B) : M B :=
  match m with
  | inl e => inl e
  | inr a => k a
  end.

Declare Scope py_scope.
Delimit Scope py_scope with py.
Notation "x <- m ;; k" := (bind m (fun x => k))
  (at level 61, m at next level, right associativity) : py_scope.
Notation "' pat <- m ;; k" := (bind m (fun x => match x with pat => k end))
  (at level 61, pat pattern, m at next level, right associativity) : py_scope.
Local Open Scope py_scope.

(* --------------------------------------------------------------------- *)
(** *** Dictionaries *)

Fixpoint lookup (k : string) (d : dict) : option value :=
  match d with
  | [] => None
  | (k', v) :: d' => if String.eqb k k' then Some v else lookup k d'
  end.

(** [d[k] = v]: the entry keeps its place when the key exists, and goes to
    the end otherwise. *)
Fixpoint dict_set (k : string) (v : value) (d : dict) : dict :=
  match d with
  | [] => [(k, v)]
  | (k', v') :: d' =>
      if String.eqb k k' then (k', v) :: d' else (k', v') :: dict_set k v d'
  end.

(** [del d[k]] on a dictionary that has the key. *)
Fixpoint dict_del (k : string) (d : dict) : dict :=
  match d with
  | [] => []
  | (k', v') :: d' =>
      if String.eqb k k' then dict_del k d' else (k', v') :: dict_del k d'
  end.

Definition has_key (k : string) (d : dict) : bool :=
  match lookup k d with Some _ => true | None => false end.

(* --------------------------------------------------------------------- *)
(** *** Built-in operations *)

(** [x is None] *)
Definition is_none (v : value) : bool :=
  match v with VNone => true | _ => false end.

(** The truth value of [x] in [if x:]. *)
Definition truthy (v : value) : bool :=
  match v with
  | VNone => false
  | VBool b => b
  | VInt z => negb (Z.eqb z 0)
  | VStr s => negb (String.eqb s "")
  | VList l => match l with [] => false | _ => true end
  | VDict d => match d with [] => false | _ => true end
  end.

(** [x[k]] for a string [k]: only a dictionary can be indexed by a string. *)
Definition getitem (v : value) (k : string) : M value :=
  match v with
  | VDict d => match lookup k d with
               | Some x => ret x
               | None => raise (KeyError k)
               end
  | _ => raise TypeError
  end.

(** [x[k] = v] *)
Definition setitem (x : value) (k : string) (v : value) : M value :=
  match x with
  | VDict d => ret (VDict (dict_set k v d))
  | _ => raise TypeError
  end.

(** [del x[k]] *)
Definition delitem (x : value) (k : string) : M value :=
  match x with
  | VDict d => if has_key k d then ret (VDict (dict_del k d))
               else raise (KeyError k)
  | _ => raise TypeError
  end.

(** [len(x)] *)
Definition py_len (v : value) : M nat :=
  match v with
  | VStr s => ret (String.length s)
  | VList l => ret (List.length l)
  | VDict d => ret (List.length d)
  | _ => raise TypeError
  end.

(** [x[0]]; the dictionaries of the model have no integer key. *)
Definition getitem0 (v : value) : M value :=
  match v with
  | VList l => match l with
               | c :: _ => ret c
               | [] => raise IndexError
               end
  | VStr s => match s with
              | String c _ => ret (VStr (String c EmptyString))
              | EmptyString => raise IndexError
              end
  | VDict _ => raise (KeyError "0")
  | _ => raise TypeError
  end.

(** [x.copy()]: dictionaries and lists have the method. *)
Definition py_copy (v : value) : M value :=
  match v with
  | VDict d => ret (VDict d)
  | VList l => ret (VList l)
  | _ => raise AttributeError
  end.

(** [k in x] for a string [k]. *)
Definition py_contains (k : string) (v : value) : M bool :=
  match v with
  | VDict d => ret (has_key k d)
  | VList l =>
      ret (existsb (fun x => match x with
                             | VStr s => String.eqb s k
                             | _ => false
                             end) l)
  | VStr s => ret (match String.index 0 k s with
                   | Some _ => true
                   | None => false
                   end)
  | _ => raise TypeError
  end.

(** [x.get(k, default)] on a dictionary. *)
Definition dict_get (d : dict) (k : string) (default : value) : value :=
  match lookup k d with
  | Some x => x
  | None => default
  end.

(** [x.get(k, default)]: only dictionaries have the method. *)
Definition py_get (v : value) (k : string) (default : value) : M value :=
  match v with
  | VDict d => ret (dict_get d k default)
  | _ => raise AttributeError
  end.

(** [x in {"retriever", "tool", "llm"}]: the operand is hashed first, which
    lists and dictionaries refuse. *)
Definition in_legacy (v : value) : M bool :=
  match v with
  | VStr s => ret (String.eqb s "retriever" || String.eqb s "tool"
                   || String.eqb s "llm")
  | VList _ | VDict _ => raise TypeError
  | _ => ret false
  end.

(* ===================================================================== *)
(** ** Accumulator merge: [AddableDict], [add], [aadd] *)
(* ===================================================================== *)

Section Accumulator.

(** Python's [a + b] on the values that are folded or stored under a key.
    The accumulator is written against any such operator; [py_add] below
    is the one of the built-in types. *)
Variable plus : value -> value -> M value.

(** The [try] block of the loop:
<<
    try:
        added = chunk[key] + other[key]
    except TypeError:
        added = other[key]
>>
*)
Definition added_value (chunk_key other_key : value) : M value :=
  match plus chunk_key other_key with
  | inl TypeError => ret other_key
  | r => r
  end.

(** The loop shared by [__add__] and [__radd__]:
<<
    for key in other:
        if key not in chunk or chunk[key] is None:
            chunk[key] = other[key]
        elif other[key] is not None:
            try:
                added = chunk[key] + other[key]
            except TypeError:
                added = other[key]
            chunk[key] = added
>>
    [other] is walked entry by entry, the entry's value being [other[key]]. *)
Fixpoint add_loop (chunk : dict) (other : dict) {struct other} : M dict :=
  match other with
  | [] => ret chunk
  | (key, other_key) :: rest =>
      match lookup key chunk with
      | None | Some VNone => add_loop (dict_set key other_key chunk) rest
      | Some chunk_key =>
          if negb (is_none other_key) then
            added <- added_value chunk_key other_key ;;
            add_loop (dict_set key added chunk) rest
          else add_loop chunk rest
      end
  end.

(** What the loop leaves under one key, from what the two dictionaries hold
    under it. *)
Definition merged_key (chunk_key other_key : option value) : M (option value) :=
  match other_key with
  | None => ret chunk_key
  | Some o =>
      match chunk_key with
      | None | Some VNone => ret (Some o)
      | Some c => if is_none o then ret (Some c)
                  else a <- added_value c o ;; ret (Some a)
      end
  end.

(** [AddableDict.__add__(self, other)]: [chunk = AddableDict(self)], the
    loop over [other], [return chunk]. *)
Definition AddableDict_add (self other : dict) : M dict :=
  add_loop self other.

(** [AddableDict.__radd__(self, other)]: [chunk = AddableDict(other)], the
    loop over [self]. *)
Definition AddableDict_radd (self other : dict) : M dict :=
  add_loop other self.

(** The body of the loop of [add] and [aadd]. *)
Definition add_step (final : value) (chunk : value) : M value :=
  if is_none final then ret chunk else plus final chunk.

Fixpoint add_from (final : value) (addables : list value) : M value :=
  match addables with
  | [] => ret final
  | chunk :: rest => final' <- add_step final chunk ;; add_from final' rest
  end.

(** [add(addables)]: [final = None], then the loop, then [return final]. *)
Definition add (addables : list value) : M value :=
  add_from VNone addables.

(** [aadd(addables)]: the same loop, over the items the asynchronous
    iterable delivers. *)
Definition aadd (addables : list value) : M value :=
  add_from VNone addables.

End Accumulator.

(** [bool] is a subclass of [int]. *)
Definition as_int (v : value) : option Z :=
  match v with
  | VInt z => Some z
  | VBool b => Some (if b then 1%Z else 0%Z)
  | _ => None
  end.

(** Python's [a + b] on the values of the model, a dictionary standing for an
    [AddableDict]: integers add, strings and lists concatenate, two
    dictionaries merge through [__add__], and operands of different kinds
    raise [TypeError].  An [AddableDict] meets only another one here, as the
    annotation [other: AddableDict] has it. *)
Fixpoint py_add (a b : value) {struct b} : M value :=
  match a, b with
  | VStr s1, VStr s2 => ret (VStr (s1 ++ s2))
  | VList l1, VList l2 => ret (VList (l1 ++ l2))
  | VDict d1, VDict d2 =>
      d <- AddableDict_add py_add d1 d2 ;; ret (VDict d)
  | _, _ =>
      match as_int a, as_int b with
      | Some x, Some y => ret (VInt (x + y))
      | _, _ => raise TypeError
      end
  end.


(* ===================================================================== *)
(** ** Run-state event translator: [as_event_stream] *)
(* ===================================================================== *)

(** One operation of a [RunLogPatch]: [{"op": ..., "path": ..., "value": ...}]. *)
Record op : Type := mk_op {
  op_op : string;
  op_path : string;
  op_value : value
}.

(** A [RunLogPatch], through its [ops]. *)
Definition RunLogPatch : Type := list op.

(** The variable [event_type] of the loop. *)
Inductive event_type : Type := Start | Stream | End.

Definition event_type_eqb (a b : event_type) : bool :=
  match a, b with
  | Start, Start | Stream, Stream | End, End => true
  | _, _ => false
  end.

(** The event name [f"on_{category}_{kind}"], kept as its two holes. *)
Record event_name : Type := on_ {
  category : value;
  kind : event_type
}.

(** [StreamEvent] *)
Record StreamEvent : Type := mk_StreamEvent {
  event : event_name;
  name : value;
  run_id : value;
  tags : value;
  metadata : value;
  data : value
}.

(** The run an event was built from: the root state or the entry of a
    sub-run under [logs]. *)
Inductive origin : Type :=
| Root
| SubRun (path : string).

Definition is_root (o : origin) : bool :=
  match o with Root => true | SubRun _ => false end.

(** What the consumer of the generator receives: the events yielded, in
    order, and then either the value the code went on with or the exception
    that ended the stream. *)
Definition G (A : Type) : Type := (list (origin * StreamEvent) * M A)%type.

Definition gret {A} (a : A) : G A := ([], ret a).
Definition lift {A} (m : M A) : G A := ([], m).
Definition yield (o : origin) (e : StreamEvent) : G unit := ([(o, e)], ret tt).
Definition gbind {A B} (m : G A) (k : A -> G B) : G B :=
  match m with
  | (evs, inl e) => (evs, inl e)
  | (evs, inr a) => let (evs', r) := k a in (evs ++ evs', r)
  end.

Declare Scope gen_scope.
Delimit Scope gen_scope with gen.
Notation "x <- m ;; k" := (gbind m (fun x => k))
  (at level 61, m at next level, right associativity) : gen_scope.
Notation "m ;;; k" := (gbind m (fun _ => k))
  (at level 61, right associativity) : gen_scope.

(** [s.startswith(prefix)] *)
Definition startswith (s prefix : string) : bool := String.prefix prefix s.

(** [s.split(sep)] for a separator of one character. *)
Fixpoint split (sep : ascii) (s : string) : list string :=
  match s with
  | EmptyString => [EmptyString]
  | String c rest =>
      if Ascii.eqb c sep then EmptyString :: split sep rest
      else match split sep rest with
           | w :: ws => String c w :: ws
           | [] => [String c EmptyString]
           end
  end.

(** The elements of the set comprehension
<<
    paths = {op["path"].split("/")[2]
             for op in log.ops if op["path"].startswith("/logs/")}
>>
    in the order of the operations, repetitions included. *)
Definition touched (log : RunLogPatch) : list string :=
  map (fun o => nth 2 (split "/" (op_path o)) "")
      (filter (fun o => startswith (op_path o) "/logs/") log).

(** The classification at the head of the loop body. *)
Definition classify (log : value) : M event_type :=
  end_time <- getitem log "end_time" ;;
  if is_none end_time then
    streamed_output <- getitem log "streamed_output" ;;
    if truthy streamed_output then ret Stream else ret Start
  else ret End.

(** [if event_type == "start": ...]; [data] and [log] come back as the
    block leaves them. *)
Definition start_block (data : dict) (log : value) : M (dict * value) :=
  type <- getitem log "type" ;;
  legacy <- in_legacy type ;;
  if legacy then
    inputs <- getitem log "inputs" ;;
    if truthy inputs then
      inputs <- getitem log "inputs" ;;
      ret (dict_set "input" inputs data, log)
    else ret (data, log)
  else
    inputs <- getitem log "inputs" ;;
    input <- getitem inputs "input" ;;
    ret (dict_set "input" input data, log).

(** [if event_type == "end": ...] *)
Definition end_block (data : dict) (log : value) : M (dict * value) :=
  type <- getitem log "type" ;;
  legacy <- in_legacy type ;;
  if legacy then
    final_output <- getitem log "final_output" ;;
    let data := dict_set "output" final_output data in
    log <- delitem log "final_output" ;;
    inputs <- getitem log "inputs" ;;
    if truthy inputs then
      inputs <- getitem log "inputs" ;;
      let data := dict_set "input" inputs data in
      log <- delitem log "inputs" ;;
      ret (data, log)
    else ret (data, log)
  else
    final_output <- getitem log "final_output" ;;
    '(data, log) <-
      (if is_none final_output then ret (dict_set "output" VNone data, log)
       else match final_output with
            | VDict fo =>
                let data := dict_set "output" (dict_get fo "output" VNone) data in
                log <- delitem log "final_output" ;;
                ret (data, log)
            | _ => ret (data, log)
            end) ;;
    inputs <- getitem log "inputs" ;;
    if truthy inputs then
      inputs <- getitem log "inputs" ;;
      input <- getitem inputs "input" ;;
      let data := dict_set "input" input data in
      log <- delitem log "inputs" ;;
      ret (data, log)
    else ret (data, log).

(** [if event_type == "stream": ...]; the message of the assertion reads
    [log['name']] before the exception is raised. *)
Definition stream_block (log : value) : M (dict * value) :=
  streamed_output <- getitem log "streamed_output" ;;
  num_chunks <- py_len streamed_output ;;
  if negb (Nat.eqb num_chunks 1) then
    name <- getitem log "name" ;;
    raise (AssertionError num_chunks name)
  else
    streamed_output <- getitem log "streamed_output" ;;
    chunk <- getitem0 streamed_output ;;
    log <- setitem log "streamed_output" (VList []) ;;
    ret ([("chunk", chunk)], log).

(** The [StreamEvent(...)] at the end of the loop body; the arguments are
    read from [log] from left to right. *)
Definition sub_run_yield (log : value) (event_type : event_type) (data : dict)
  : M StreamEvent :=
  type <- getitem log "type" ;;
  name <- getitem log "name" ;;
  id <- getitem log "id" ;;
  tags <- getitem log "tags" ;;
  metadata <- getitem log "metadata" ;;
  ret (mk_StreamEvent (on_ type event_type) name id tags metadata (VDict data)).

(** The body of [for path in paths:] once [log] is bound: the event that is
    yielded and [log] as the body leaves it. *)
Definition sub_run_event (log : value) : M (StreamEvent * value) :=
  let data : dict := [] in
  event_type <- classify log ;;
  '(data, log) <- (if event_type_eqb event_type Start
                   then start_block data log else ret (data, log)) ;;
  '(data, log) <- (if event_type_eqb event_type End
                   then end_block data log else ret (data, log)) ;;
  '(data, log) <- (if event_type_eqb event_type Stream
                   then stream_block log else ret (data, log)) ;;
  ev <- sub_run_yield log event_type data ;;
  ret (ev, log).

(** [run_log.state["logs"][path]] after the body has changed the entry in
    place. *)
Definition store_log (state : value) (path : string) (log : value) : value :=
  match state with
  | VDict d =>
      match lookup "logs" d with
      | Some (VDict logs) =>
          VDict (dict_set "logs" (VDict (dict_set path log logs)) d)
      | _ => state
      end
  | _ => state
  end.

(** One round of [for path in paths:]. *)
Definition for_path (state : value) (path : string) : G value :=
  (logs <- lift (getitem state "logs") ;;
   log <- lift (getitem logs path) ;;
   r <- lift (sub_run_event log) ;;
   yield (SubRun path) (fst r) ;;;
   gret (store_log state path (snd r)))%gen.

Fixpoint for_paths (state : value) (paths : list string) : G value :=
  match paths with
  | [] => gret state
  | path :: rest =>
      (state <- for_path state path ;; for_paths state rest)%gen
  end.

(** [if not yielded_start_event: ...]; returns the flag. *)
Definition root_start (run_log_state : value) (yielded_start_event : bool)
  : G bool :=
  if negb yielded_start_event then
    (state <- lift (py_copy run_log_state) ;;
     let data : dict := [] in
     has_id <- lift (py_contains "id" state) ;;
     if has_id : bool then
       type <- lift (getitem state "type") ;;
       name <- lift (getitem state "name") ;;
       id <- lift (getitem state "id") ;;
       yield Root (mk_StreamEvent (on_ type Start) name id
                     (VList []) (VDict []) (VDict data)) ;;;
       gret true
     else gret yielded_start_event)%gen
  else gret yielded_start_event.

(** The block after the loop over the paths: [state = run_log.state],
    [if state["streamed_output"]: ...]. *)
Definition root_stream (state : value) : G value :=
  (streamed_output <- lift (getitem state "streamed_output") ;;
   if truthy streamed_output then
     num_chunks <- lift (py_len streamed_output) ;;
     if negb (Nat.eqb num_chunks 1) then
       name <- lift (getitem state "name") ;;
       lift (raise (AssertionError num_chunks name))
     else
       streamed_output <- lift (getitem state "streamed_output") ;;
       chunk <- lift (getitem0 streamed_output) ;;
       let data : dict := [("chunk", chunk)] in
       state <- lift (setitem state "streamed_output" (VList [])) ;;
       type <- lift (getitem state "type") ;;
       name <- lift (getitem state "name") ;;
       id <- lift (getitem state "id") ;;
       tags <- lift (py_get state "tags" (VList [])) ;;
       metadata <- lift (py_get state "metadata" (VDict [])) ;;
       yield Root (mk_StreamEvent (on_ type Stream) name id tags metadata
                     (VDict data)) ;;;
       gret state
   else gret state)%gen.

(** [state.update({...})] *)
Definition py_update (x : value) (entries : dict) : M value :=
  match x with
  | VDict d => ret (VDict (fold_left (fun acc kv => dict_set (fst kv) (snd kv) acc)
                             entries d))
  | _ => raise AttributeError
  end.

(** The code after the loop over the patches. *)
Definition final_event (run_log_state : value) : G unit :=
  (state <- lift (py_copy run_log_state) ;;
   state <- lift (py_update state [("tags", VList []); ("metadata", VDict [])]) ;;
   final_output <- lift (getitem state "final_output") ;;
   let data : dict := [("output", final_output)] in
   type <- lift (getitem state "type") ;;
   name <- lift (getitem state "name") ;;
   id <- lift (getitem state "id") ;;
   tags <- lift (getitem state "tags") ;;
   metadata <- lift (getitem state "metadata") ;;
   yield Root (mk_StreamEvent (on_ type End) name id tags metadata
                 (VDict data)))%gen.

Section Translator.

(** [run_log + log] on the state of the run log: [RunLog.__add__] is part of
    [langchain_core.tracers], outside this module. *)
Variable RunLog_add : value -> RunLogPatch -> M value.

(** The order in which [for path in paths] walks the set made of the given
    elements; Python leaves it open. *)
Variable set_iter : list string -> list string.

(** The body of [async for log in run_log_patches:]. *)
Definition patch_step (run_log : value) (yielded_start_event : bool)
  (log : RunLogPatch) : G (value * bool) :=
  (run_log <- lift (RunLog_add run_log log) ;;
   yielded_start_event <- root_start run_log yielded_start_event ;;
   let paths := set_iter (touched log) in
   state <- for_paths run_log paths ;;
   state <- root_stream state ;;
   gret (state, yielded_start_event))%gen.

(** The loop over the patches, from given values of its two variables to
    their values when the patches are exhausted. *)
Fixpoint patch_loop (run_log : value) (yielded_start_event : bool)
  (run_log_patches : list RunLogPatch) : G (value * bool) :=
  match run_log_patches with
  | [] => gret (run_log, yielded_start_event)
  | log :: rest =>
      (r <- patch_step run_log yielded_start_event log ;;
       patch_loop (fst r) (snd r) rest)%gen
  end.

(** [as_event_stream(run_log_patches)]: [run_log = RunLog(state=None)],
    [yielded_start_event = False], the loop over the patches, the final
    event. *)
Definition as_event_stream (run_log_patches : list RunLogPatch) : G unit :=
  (r <- patch_loop VNone false run_log_patches ;;
   final_event (fst r))%gen.

End Translator.

(* --------------------------------------------------------------------- *)
(** *** A patch library and an iteration order to run the translator with *)

(** Modelled from the spec: [RunLog.__add__], which lives in
    [langchain_core.tracers].  A patch operation carries a slash-delimited
    path into the state tree and a value, and is an add or a replace at that
    path: the empty path replaces the whole tree, a member of an object is
    set, [-] appends to a list.  Anything else is refused. *)
Fixpoint patch_at (tokens : list string) (v : value) (doc : value) : M value :=
  match tokens with
  | [] => ret v
  | t :: ts =>
      match doc with
      | VDict d =>
          match ts with
          | [] => ret (VDict (dict_set t v d))
          | _ :: _ =>
              match lookup t d with
              | Some child =>
                  child' <- patch_at ts v child ;;
                  ret (VDict (dict_set t child' d))
              | None => raise PatchError
              end
          end
      | VList l =>
          match ts with
          | [] => if String.eqb t "-" then ret (VList (l ++ [v]))
                  else raise PatchError
          | _ :: _ => raise PatchError
          end
      | _ => raise PatchError
      end
  end.

(** Modelled from the spec: one operation, its path split at the slashes. *)
Definition apply_op (doc : value) (o : op) : M value :=
  patch_at (tl (split "/" (op_path o))) (op_value o) doc.

(** Modelled from the spec: [run_log + log] on the state, the operations of
    the patch applied in order. *)
Fixpoint apply_patch (doc : value) (ops : list op) : M value :=
  match ops with
  | [] => ret doc
  | o :: rest => doc' <- apply_op doc o ;; apply_patch doc' rest
  end.

(** One order a set of strings can be walked in: first occurrence first. *)
Fixpoint first_seen (l : list string) : list string :=
  match l with
  | [] => []
  | x :: rest => x :: filter (fun y => negb (String.eqb x y)) (first_seen rest)
  end.

(* ===================================================================== *)
(** ** Bounded concurrency executor: [gated_coro], [gather_with_concurrency] *)
(* ===================================================================== *)

(** A coroutine handed to the executor: the number of times it suspends
    before it completes, and what it completes with. *)
Record coro : Type := mk_coro {
  ticks : nat;
  outcome : M value
}.

(** Where a task of [asyncio.gather] stands.  A gated task waits at
    [async with semaphore], then runs [await coro] inside the block, and
    leaves the block when the coroutine returns or raises. *)
Inductive task : Type :=
| Waiting (c : coro)
| Running (left : nat) (c : coro)
| Done (r : M value).

(** The tasks in input order and the value of the semaphore when there is
    one. *)
Record executor : Type := mk_executor {
  semaphore : option nat;
  tasks : list task
}.

(** [gated_coro(semaphore, coro)] when it is created: nothing has run. *)
Definition gated_coro (c : coro) : task := Waiting c.

(** [gather_with_concurrency(n, *coros)], up to the point where the event
    loop takes over.  [asyncio.Semaphore] refuses a negative value. *)
Definition gather_with_concurrency (n : option Z) (coros : list coro)
  : M executor :=
  match n with
  | None => ret (mk_executor None (map (fun c => Running (ticks c) c) coros))
  | Some n =>
      if (n <? 0)%Z then raise ValueError
      else ret (mk_executor (Some (Z.to_nat n)) (map gated_coro coros))
  end.

(** The list with its [i]-th element replaced. *)
Fixpoint set_nth {A} (i : nat) (x : A) (l : list A) : list A :=
  match l, i with
  | [], _ => []
  | _ :: l', O => x :: l'
  | y :: l', S i' => y :: set_nth i' x l'
  end.

(** One move of the event loop: a waiting task enters
    [async with semaphore] when the value of the semaphore is positive, and
    takes one permit; a coroutine inside [await coro] runs to its next
    suspension; a coroutine completes, its task leaves the [async with]
    block and gives the permit back. *)
Inductive step : executor -> executor -> Prop :=
| step_acquire : forall s ts i c,
    nth_error ts i = Some (Waiting c) ->
    step (mk_executor (Some (S s)) ts)
         (mk_executor (Some s) (set_nth i (Running (ticks c) c) ts))
| step_await : forall sem ts i k c,
    nth_error ts i = Some (Running (S k) c) ->
    step (mk_executor sem ts)
         (mk_executor sem (set_nth i (Running k c) ts))
| step_release : forall sem ts i c,
    nth_error ts i = Some (Running 0 c) ->
    step (mk_executor sem ts)
         (mk_executor (option_map S sem) (set_nth i (Done (outcome c)) ts)).

(** The states the event loop can be in after it started in [e0]. *)
Inductive reachable (e0 : executor) : executor -> Prop :=
| reach_refl : reachable e0 e0
| reach_step : forall e e', reachable e0 e -> step e e' -> reachable e0 e'.

Definition is_running (t : task) : bool :=
  match t with Running _ _ => true | _ => false end.

(** The number of tasks inside their coroutine. *)
Definition active (e : executor) : nat :=
  List.length (filter is_running (tasks e)).

Definition is_done (t : task) : bool :=
  match t with Done _ => true | _ => false end.

(** What each finished task left, in the order of the tasks. *)
Definition results (e : executor) : list (M value) :=
  flat_map (fun t => match t with Done r => [r] | _ => [] end) (tasks e).



(** What the semaphore guards: its value and the number of tasks inside
    their coroutine add up to the limit. *)
Definition gate_holds (limit : nat) (e : executor) : Prop :=
  match semaphore e with
  | Some s => s + active e = limit
  | None => True
  end.




(** A run of the event loop of the given number of moves. *)
Inductive steps : nat -> executor -> executor -> Prop :=
| steps_O : forall e, steps 0 e e
| steps_S : forall n e e' e'', steps n e e' -> step e' e'' ->
    steps (S n) e e''.

(** Two coroutines, the second of which raises, and the start of their
    gated gather under a limit of one. *)
Definition sample_coros : list coro :=
  [mk_coro 0 (inr (VInt 1)); mk_coro 1 (inl ValueError)].


(* ===================================================================== *)
(** ** Configurable field specs: [get_unique_config_specs] *)
(* ===================================================================== *)

(** [ConfigurableFieldSpec], a named tuple.  The fields typed [Any] take
    their values in a type of their own. *)
Module ConfigurableFieldSpec.
Record t (Any : Type) : Type := mk {
  id : string;
  annotation : Any;
  name : option string;
  description : option string;
  default : Any;
  is_shared : bool;
  dependencies : option (list string)
}.
Arguments mk {Any}.
Arguments id {Any}.
Arguments annotation {Any}.
Arguments name {Any}.
Arguments description {Any}.
Arguments default {Any}.
Arguments is_shared {Any}.
Arguments dependencies {Any}.
End ConfigurableFieldSpec.

(** [a == b] on optional values and on lists, from [==] on the items. *)
Definition option_eqb {A} (eqb : A -> A -> bool) (a b : option A) : bool :=
  match a, b with
  | None, None => true
  | Some x, Some y => eqb x y
  | _, _ => false
  end.

Fixpoint list_eqb {A} (eqb : A -> A -> bool) (a b : list A) : bool :=
  match a, b with
  | [], [] => true
  | x :: a', y :: b' => eqb x y && list_eqb eqb a' b'
  | _, _ => false
  end.

(** [a < b] on tuples of strings: the first items that differ decide, and a
    tuple is below the tuples it is a proper prefix of. *)
Fixpoint key_ltb (a b : list string) : bool :=
  match a, b with
  | [], [] => false
  | [], _ :: _ => true
  | _ :: _, [] => false
  | x :: a', y :: b' =>
      match String.compare x y with
      | Lt => true
      | Gt => false
      | Eq => key_ltb a' b'
      end
  end.

Section ConfigSpecs.

Variable Any : Type.

(** [==] on the values of the fields typed [Any]. *)
Variable any_eq : Any -> Any -> bool.

(** [o == first] on two specs: the equality of tuples, item by item. *)
Definition spec_eq (a b : ConfigurableFieldSpec.t Any) : bool :=
  String.eqb (ConfigurableFieldSpec.id a) (ConfigurableFieldSpec.id b)
  && any_eq (ConfigurableFieldSpec.annotation a)
            (ConfigurableFieldSpec.annotation b)
  && option_eqb String.eqb (ConfigurableFieldSpec.name a)
                           (ConfigurableFieldSpec.name b)
  && option_eqb String.eqb (ConfigurableFieldSpec.description a)
                           (ConfigurableFieldSpec.description b)
  && any_eq (ConfigurableFieldSpec.default a) (ConfigurableFieldSpec.default b)
  && Bool.eqb (ConfigurableFieldSpec.is_shared a)
              (ConfigurableFieldSpec.is_shared b)
  && option_eqb (list_eqb String.eqb) (ConfigurableFieldSpec.dependencies a)
                                      (ConfigurableFieldSpec.dependencies b).

(** The sort key [(s.id, *(s.dependencies or []))]. *)
Definition sort_key (s : ConfigurableFieldSpec.t Any) : list string :=
  ConfigurableFieldSpec.id s
  :: match ConfigurableFieldSpec.dependencies s with
     | Some deps => deps
     | None => []
     end.

(** [sorted(specs, key=...)]: the sort is stable and compares keys with [<]
    only, so its result is that of an insertion from the right, which puts
    an item before the items whose key is not below its own. *)
Fixpoint sorted_insert (x : ConfigurableFieldSpec.t Any)
  (l : list (ConfigurableFieldSpec.t Any)) : list (ConfigurableFieldSpec.t Any) :=
  match l with
  | [] => [x]
  | y :: l' =>
      if key_ltb (sort_key y) (sort_key x) then y :: sorted_insert x l'
      else x :: l
  end.

Fixpoint sorted (specs : list (ConfigurableFieldSpec.t Any))
  : list (ConfigurableFieldSpec.t Any) :=
  match specs with
  | [] => []
  | x :: rest => sorted_insert x (sorted rest)
  end.

(** [groupby(..., lambda s: s.id)]: the runs of consecutive items with the
    same [id]; each group as [next(dupes)] and [list(dupes)] find it. *)
Fixpoint groupby (l : list (ConfigurableFieldSpec.t Any))
  : list (string * (ConfigurableFieldSpec.t Any
                    * list (ConfigurableFieldSpec.t Any))) :=
  match l with
  | [] => []
  | x :: rest =>
      match groupby rest with
      | (k, (first, others)) :: groups =>
          if String.eqb (ConfigurableFieldSpec.id x) k
          then (k, (x, first :: others)) :: groups
          else (ConfigurableFieldSpec.id x, (x, []))
               :: (k, (first, others)) :: groups
      | [] => [(ConfigurableFieldSpec.id x, (x, []))]
      end
  end.

(** The loop over the groups. *)
Fixpoint unique_loop
  (grouped : list (string * (ConfigurableFieldSpec.t Any
                             * list (ConfigurableFieldSpec.t Any))))
  (unique : list (ConfigurableFieldSpec.t Any))
  : M (list (ConfigurableFieldSpec.t Any)) :=
  match grouped with
  | [] => ret unique
  | (_, (first, others)) :: rest =>
      if Nat.eqb (List.length others) 0 then
        unique_loop rest (unique ++ [first])
      else if forallb (fun o => spec_eq o first) others then
        unique_loop rest (unique ++ [first])
      else raise ValueError
  end.

(** [get_unique_config_specs(specs)] *)
Definition get_unique_config_specs (specs : list (ConfigurableFieldSpec.t Any))
  : M (list (ConfigurableFieldSpec.t Any)) :=
  let grouped := groupby (sorted specs) in
  unique_loop grouped [].

End ConfigSpecs.

(* ===================================================================== *)
(** ** Text: [indent_lines_after_first] *)
(* ===================================================================== *)

(** The characters at which [str.splitlines] ends a line, among the code
    points below 256 that a string of the model holds: line feed, vertical
    tab, form feed, carriage return, the three separators 28 to 30 and the
    next-line character 133. *)
Definition is_linebreak (c : ascii) : bool :=
  existsb (Nat.eqb (nat_of_ascii c)) [10; 11; 12; 13; 28; 29; 30; 133].

(** [s.splitlines()]: the lines without their ends; a carriage return and
    the line feed after it end one line together, and a text that ends with
    a line end has no empty last line. *)
Fixpoint splitlines (s : string) : list string :=
  match s with
  | EmptyString => []
  | String c rest =>
      if Ascii.eqb c "013" then
        match rest with
        | String "010" rest' => EmptyString :: splitlines rest'
        | _ => EmptyString :: splitlines rest
        end
      else if is_linebreak c then EmptyString :: splitlines rest
      else match splitlines rest with
           | line :: lines => String c line :: lines
           | [] => [String c EmptyString]
           end
  end.

(** [s * n] *)
Fixpoint str_mul (s : string) (n : nat) : string :=
  match n with
  | O => EmptyString
  | S n' => (s ++ str_mul s n')%string
  end.

(** [indent_lines_after_first(text, prefix)]; [lines[0]] raises on a text
    without lines. *)
Definition indent_lines_after_first (text prefix : string) : M string :=
  let n_spaces := String.length prefix in
  let spaces := str_mul " " n_spaces in
  let lines := splitlines text in
  match lines with
  | [] => raise IndexError
  | first :: rest =>
      ret (String.concat (String "010" EmptyString)
             (first :: map (fun line => (spaces ++ line)%string) rest))
  end.

(** The order of two specs by their [id]. *)
Definition id_lt {Any} (a b : ConfigurableFieldSpec.t Any) : Prop :=
  String.compare (ConfigurableFieldSpec.id a) (ConfigurableFieldSpec.id b) = Lt.

Definition id_le {Any} (a b : ConfigurableFieldSpec.t Any) : Prop :=
  String.compare (ConfigurableFieldSpec.id a) (ConfigurableFieldSpec.id b) <> Gt.

(** The order the sort leaves between neighbours: the key of the second is
    not below the key of the first. *)
Definition key_le {Any} (a b : ConfigurableFieldSpec.t Any) : Prop :=
  key_ltb (sort_key Any b) (sort_key Any a) = false.

(** The items of a group, and its first item. *)
Definition group_items {Any}
  (g : string * (ConfigurableFieldSpec.t Any
                 * list (ConfigurableFieldSpec.t Any)))
  : list (ConfigurableFieldSpec.t Any) :=
  fst (snd g) :: snd (snd g).

Definition group_first {Any}
  (g : string * (ConfigurableFieldSpec.t Any
                 * list (ConfigurableFieldSpec.t Any)))
  : ConfigurableFieldSpec.t Any :=
  fst (snd g).

(** A group whose other items are all equal to the first. *)
Definition group_agrees {Any} (any_eq : Any -> Any -> bool)
  (g : string * (ConfigurableFieldSpec.t Any
                 * list (ConfigurableFieldSpec.t Any))) : bool :=
  forallb (fun o => spec_eq Any any_eq o (fst (snd g))) (snd (snd g)).

(** A spec over natural-number values with only [id], [default] and
    [dependencies] set. *)
Definition sample_spec (id : string) (default : nat)
  (dependencies : option (list string)) : ConfigurableFieldSpec.t nat :=
  ConfigurableFieldSpec.mk id 0 None None default false dependencies.

(** Three specs, one of them twice, and two specs in conflict. *)
Definition sample_specs : list (ConfigurableFieldSpec.t nat) :=
  [sample_spec "b" 1 None; sample_spec "a" 2 (Some ["b"]);
   sample_spec "b" 1 None].

Definition unique_sample_specs : list (ConfigurableFieldSpec.t nat) :=
  [sample_spec "a" 2 (Some ["b"]); sample_spec "b" 1 None].

Definition conflicting_specs : list (ConfigurableFieldSpec.t nat) :=
  [sample_spec "a" 1 None; sample_spec "b" 1 None; sample_spec "a" 2 None].

(** A string without line boundaries: one line. *)
Fixpoint no_break (s : string) : bool :=
  match s with
  | EmptyString => true
  | String c rest => negb (is_linebreak c) && no_break rest
  end.

(** [sep.join(lines)], and the line feed. *)
Definition join (sep : string) (lines : list string) : string :=
  String.concat sep lines.

Definition LF : string := String "010" EmptyString.

(** A path segment: a string without a slash. *)
Fixpoint no_slash (s : string) : bool :=
  match s with
  | EmptyString => true
  | String c rest => negb (Ascii.eqb c "/") && no_slash rest
  end.

(** [state["logs"][path]] *)
Definition entry_of (state : value) (path : string) : M value :=
  logs <- getitem state "logs" ;; getitem logs path.

(* ===================================================================== *)
(** ** Vocabulary of the specification *)
(* ===================================================================== *)

(** The legacy categories. *)
Definition legacy_category (type : value) : Prop :=
  type = VStr "retriever" \/ type = VStr "tool" \/ type = VStr "llm".

(** A field of an entry once it has been cleared. *)
Definition cleared (k : string) (log : value) : value :=
  match log with
  | VDict d => VDict (dict_del k d)
  | _ => log
  end.


(** The output of the end event of a new-style run, from its final output:
    null gives null, a mapping gives its [output], any other shape gives no
    [output] key. *)
Definition new_style_output (final_output : value) : dict :=
  match final_output with
  | VNone => [("output", VNone)]
  | VDict m => [("output", dict_get m "output" VNone)]
  | _ => []
  end.

(** The entry of a new-style run after its output has been taken: the final
    output is cleared when it is a mapping. *)
Definition new_style_taken (final_output : value) (log : value) : value :=
  match final_output with
  | VDict _ => cleared "final_output" log
  | _ => log
  end.





(** No event of the root among the events. *)
Definition no_root_event (evs : list (origin * StreamEvent)) : Prop :=
  forall o ev, In (o, ev) evs -> is_root o = false.

(** The events of the root among the events are stream events. *)
Definition only_root_streams (evs : list (origin * StreamEvent)) : Prop :=
  forall ev, In (Root, ev) evs -> kind (event ev) = Stream.

(** The events hold one start event of the root, with empty data; no event
    of the root comes before it, and the events of the root after it are
    stream events. *)
Definition root_started (evs : list (origin * StreamEvent)) : Prop :=
  exists pre start rest,
    evs = pre ++ (Root, start) :: rest /\
    no_root_event pre /\
    kind (event start) = Start /\ data start = VDict [] /\
    only_root_streams rest.

(* --------------------------------------------------------------------- *)
(** *** Sample data *)

(** An entry of [logs] with every field of a [LogEntry]. *)
Definition log_entry (id name type : string) (streamed_output : list value)
  (final_output inputs end_time : value) : value :=
  VDict [("id", VStr id); ("name", VStr name); ("type", VStr type);
         ("tags", VList []); ("metadata", VDict []);
         ("streamed_output", VList streamed_output);
         ("final_output", final_output); ("end_time", end_time);
         ("inputs", inputs)].

(** A root state with the fields of a [RunState]. *)
Definition run_state (id name type : string) (streamed_output : list value)
  (final_output : value) (logs : dict) : value :=
  VDict [("id", VStr id); ("name", VStr name); ("type", VStr type);
         ("streamed_output", VList streamed_output);
         ("final_output", final_output); ("logs", VDict logs)].

(** The event of a sub-run built from [log_entry]. *)
Definition sample_event (id name type : string) (k : event_type) (d : dict)
  : StreamEvent :=
  mk_StreamEvent (on_ (VStr type) k) (VStr name) (VStr id)
    (VList []) (VDict []) (VDict d).

(** A run of a chain with one model call: the root state arrives, the
    entry of the call is added, the call streams one chunk, the call ends,
    the chain sets its final output. *)
Definition sample_patches : list RunLogPatch :=
  [ [mk_op "replace" "" (run_state "r1" "seq" "chain" [] VNone [])];
    [mk_op "add" "/logs/a"
       (log_entry "s1" "gen" "llm" [] VNone (VDict [("q", VStr "hi")]) VNone)];
    [mk_op "add" "/logs/a/streamed_output/-" (VStr "tok")];
    [mk_op "add" "/logs/a/final_output" (VStr "done");
     mk_op "add" "/logs/a/end_time" (VStr "t1")];
    [mk_op "replace" "/final_output" (VDict [("output", VStr "done")])] ].

(** The same run when the call buffers two chunks in one patch. *)
Definition two_chunk_patches : list RunLogPatch :=
  [ [mk_op "replace" "" (run_state "r1" "seq" "chain" [] VNone [])];
    [mk_op "add" "/logs/a"
       (log_entry "s1" "gen" "llm" [] VNone (VDict [("q", VStr "hi")]) VNone)];
    [mk_op "add" "/logs/a/streamed_output/-" (VStr "tok1");
     mk_op "add" "/logs/a/streamed_output/-" (VStr "tok2")];
    [mk_op "replace" "/final_output" (VDict [("output", VStr "done")])] ].

(** The sample run followed by a patch that tags the ended call. *)
Definition late_touch_patches : list RunLogPatch :=
  sample_patches ++ [[mk_op "add" "/logs/a/tags/-" (VStr "late")]].



(** A root state without [final_output], and one without [id]. *)
Definition state_without_final_output : value :=
  VDict [("id", VStr "r1"); ("name", VStr "seq"); ("type", VStr "chain");
         ("streamed_output", VList []); ("logs", VDict [])].

Definition state_without_id : value :=
  VDict [("name", VStr "seq"); ("type", VStr "chain");
         ("streamed_output", VList []); ("final_output", VNone);
         ("logs", VDict [])].

(* ===================================================================== *)
(** ** Basic facts about dictionaries and the two monads *)
(* ===================================================================== *)

Lemma lookup_dict_set_eq : forall k v d, lookup k (dict_set k v d) = Some v.
Proof.
  intros k v d; induction d as [|[k' v'] d IH]; simpl.
  - now rewrite String.eqb_refl.
  - destruct (String.eqb k k') eqn:E; simpl; rewrite E; auto.
Qed.

Lemma lookup_dict_set_neq : forall k k' v d,
  k <> k' -> lookup k' (dict_set k v d) = lookup k' d.
Proof.
  intros k k' v d Hne; induction d as [|[k0 v0] d IH]; simpl.
  - destruct (String.eqb k' k) eqn:E; auto.
    apply String.eqb_eq in E; congruence.
  - destruct (String.eqb k k0) eqn:E; simpl.
    + apply String.eqb_eq in E; subst k0.
      destruct (String.eqb k' k) eqn:E'; auto.
      apply String.eqb_eq in E'; congruence.
    + now rewrite IH.
Qed.


Lemma lookup_dict_del_neq : forall k k' d,
  k <> k' -> lookup k' (dict_del k d) = lookup k' d.
Proof.
  intros k k' d Hne; induction d as [|[k0 v0] d IH]; simpl; auto.
  destruct (String.eqb k k0) eqn:E; simpl.
  - apply String.eqb_eq in E; subst k0.
    destruct (String.eqb k' k) eqn:E'; auto.
    apply String.eqb_eq in E'; congruence.
  - now rewrite IH.
Qed.

Lemma lookup_not_in : forall k d, ~ In k (map fst d) -> lookup k d = None.
Proof.
  intros k d; induction d as [|[k' v'] d IH]; simpl; auto.
  intros Hn. destruct (String.eqb k k') eqn:E.
  - apply String.eqb_eq in E. subst. tauto.
  - apply IH. tauto.
Qed.

Lemma bind_inr : forall A B (m : M A) (k : A -> M B) b,
  bind m k = inr b -> exists a, m = inr a /\ k a = inr b.
Proof.
  intros A B [e|a] k b H; simpl in H; [discriminate|eauto].
Qed.

Lemma getitem_inr : forall v k x,
  getitem v k = inr x -> exists d, v = VDict d /\ lookup k d = Some x.
Proof.
  intros [| | | | |d] k x H; simpl in H; try discriminate.
  exists d. split; auto.
  destruct (lookup k d); [inversion H; auto | discriminate].
Qed.

(** Inversion of a step of the generator monad. *)
Lemma gbind_inv : forall A B (m : G A) (k : A -> G B) evs r,
  gbind m k = (evs, r) ->
  (exists e, m = (evs, inl e) /\ r = inl e) \/
  (exists evs1 a evs2, m = (evs1, inr a) /\ k a = (evs2, r)
                       /\ evs = evs1 ++ evs2).
Proof.
  intros A B [evs1 [e|a]] k evs r H; simpl in H.
  - inversion H; subst. left; eauto.
  - destruct (k a) as [evs2 r2] eqn:E. inversion H; subst.
    right. exists evs1, a, evs2. auto.
Qed.

Lemma gbind_lift : forall A B (m : M A) (k : A -> G B),
  gbind (lift m) k = match m with
                     | inl e => ([], inl e)
                     | inr a => k a
                     end.
Proof.
  intros A B [e|a] k; simpl; auto.
  destruct (k a); reflexivity.
Qed.

(* ===================================================================== *)
(** ** The accumulator *)
(* ===================================================================== *)

Section AccumulatorFacts.

Variable plus : value -> value -> M value.

Lemma add_loop_lookup : forall other chunk r,
  NoDup (map fst other) ->
  add_loop plus chunk other = inr r ->
  forall k, merged_key plus (lookup k chunk) (lookup k other) = inr (lookup k r).
Proof.
  induction other as [|[key ov] rest IH]; intros chunk r Hnd H k.
  - simpl in H. inversion H; subst. reflexivity.
  - simpl in Hnd. inversion Hnd as [|? ? Hnotin Hnd']; subst.
    simpl in H. simpl lookup at 2.
    destruct (String.eqb k key) eqn:Ek.
    + apply String.eqb_eq in Ek; subst k.
      assert (Hrest : lookup key rest = None) by now apply lookup_not_in.
      destruct (lookup key chunk) as [cv|] eqn:Ec.
      * destruct (is_none cv) eqn:Ecv.
        { destruct cv; try discriminate.
          specialize (IH _ _ Hnd' H key).
          rewrite Hrest, lookup_dict_set_eq in IH. simpl in IH.
          simpl. congruence. }
        assert (H' : (if negb (is_none ov)
                      then added <- added_value plus cv ov ;;
                           add_loop plus (dict_set key added chunk) rest
                      else add_loop plus chunk rest) = inr r)
          by (destruct cv; try discriminate; exact H).
        clear H.
        assert (Hm : merged_key plus (Some cv) (Some ov)
                     = (if is_none ov then ret (Some cv)
                        else a <- added_value plus cv ov ;; ret (Some a)))
          by (destruct cv; try discriminate; reflexivity).
        rewrite Hm.
        destruct (is_none ov); simpl in H'.
        { specialize (IH _ _ Hnd' H' key).
          rewrite Hrest, Ec in IH. simpl in IH. simpl. congruence. }
        apply bind_inr in H' as (a & Ha & H').
        specialize (IH _ _ Hnd' H' key).
        rewrite Hrest, lookup_dict_set_eq in IH. simpl in IH.
        rewrite Ha. simpl. congruence.
      * specialize (IH _ _ Hnd' H key).
        rewrite Hrest, lookup_dict_set_eq in IH. simpl in IH.
        simpl. congruence.
    + assert (Hne : key <> k)
        by (intros ->; rewrite String.eqb_refl in Ek; discriminate).
      destruct (lookup key chunk) as [cv|] eqn:Ec.
      * destruct (is_none cv) eqn:Ecv.
        { destruct cv; try discriminate.
          specialize (IH _ _ Hnd' H k).
          now rewrite lookup_dict_set_neq in IH by assumption. }
        assert (H' : (if negb (is_none ov)
                      then added <- added_value plus cv ov ;;
                           add_loop plus (dict_set key added chunk) rest
                      else add_loop plus chunk rest) = inr r)
          by (destruct cv; try discriminate; exact H).
        clear H.
        destruct (is_none ov); simpl in H'.
        { exact (IH _ _ Hnd' H' k). }
        apply bind_inr in H' as (a & Ha & H').
        specialize (IH _ _ Hnd' H' k).
        now rewrite lookup_dict_set_neq in IH by assumption.
      * specialize (IH _ _ Hnd' H k).
        now rewrite lookup_dict_set_neq in IH by assumption.
Qed.

(** X15: under a key, [None] or no entry on one side of
    [AddableDict.__add__] lets the value of the other side through
    unchanged: [+] is not tried. *)
Lemma AddableDict_add_none_key : forall self other r k,
  NoDup (map fst other) ->
  AddableDict_add plus self other = inr r ->
  (lookup k self = None \/ lookup k self = Some VNone ->
   forall y, lookup k other = Some y -> lookup k r = Some y) /\
  (lookup k other = None \/ lookup k other = Some VNone ->
   forall x, lookup k self = Some x -> lookup k r = Some x).
Proof.
  intros self other r k Hnd H.
  pose proof (add_loop_lookup _ _ _ Hnd H k) as Hk.
  split.
  - intros [Hs|Hs] y Hy; rewrite Hs, Hy in Hk; unfold merged_key, ret in Hk;
      congruence.
  - intros [Ho|Ho] x Hx; rewrite Ho, Hx in Hk; unfold merged_key, ret in Hk;
      [congruence|].
    destruct x; simpl in Hk; congruence.
Qed.

Lemma add_from_raises : forall a b e,
  is_none a = false -> plus a b = inl e -> add_from plus VNone [a; b] = inl e.
Proof.
  intros a b e Ha Hp. unfold add_from, add_step; simpl.
  now rewrite Ha, Hp.
Qed.

(** C7 (as amended): the fold of an empty sequence is [None] and the fold of
    [[X]] is [X], for [add] and for [aadd]; [None] on the left of the step
    of the fold lets the right operand through, so a leading [None] is
    dropped; with [None] on the right the step is [X + None] itself, which
    raises [TypeError] for every value of the built-in types but [None]. *)
Theorem add_empty_marker_left_identity : forall (X : value) (xs : list value),
  add plus [] = inr VNone /\ aadd plus [] = inr VNone /\
  add plus [X] = inr X /\ aadd plus [X] = inr X /\
  add_step plus VNone X = inr X /\
  add plus (VNone :: xs) = add plus xs /\
  aadd plus (VNone :: xs) = aadd plus xs /\
  add_step plus X VNone = (if is_none X then inr VNone else plus X VNone) /\
  add_step py_add X VNone = (if is_none X then inr VNone else inl TypeError).
Proof.
  intros X xs. repeat split; destruct X; reflexivity.
Qed.

(** C8 (as amended): under a key that both dictionaries hold with values
    that are not [None] and whose [+] raises [TypeError], the [try] block of
    [AddableDict.__add__] and [__radd__] does not raise and leaves the value
    of the right operand, which is what the merged dictionary holds under
    the key; the fold [add] / [aadd] has no such handler and raises the
    [TypeError]. *)
Theorem AddableDict_override_on_type_error : forall self other k x y,
  NoDup (map fst other) ->
  lookup k self = Some x -> lookup k other = Some y ->
  is_none x = false -> is_none y = false ->
  plus x y = inl TypeError ->
  added_value plus x y = inr y /\
  (forall r, AddableDict_add plus self other = inr r -> lookup k r = Some y) /\
  (forall r, AddableDict_radd plus other self = inr r -> lookup k r = Some y) /\
  add plus [x; y] = inl TypeError /\
  aadd plus [x; y] = inl TypeError.
Proof.
  intros self other k x y Hnd Hx Hy Hxn Hyn Hp.
  assert (Ha : added_value plus x y = inr y)
    by (unfold added_value; now rewrite Hp).
  assert (Hr : forall r, add_loop plus self other = inr r -> lookup k r = Some y).
  { intros r H.
    pose proof (add_loop_lookup _ _ _ Hnd H k) as Hk.
    rewrite Hx, Hy in Hk.
    assert (Hm : merged_key plus (Some x) (Some y) = inr (Some y)).
    { destruct x; try discriminate; simpl; rewrite Hyn, Ha; reflexivity. }
    congruence. }
  repeat split; auto; now apply add_from_raises.
Qed.

End AccumulatorFacts.

(** The merged dictionary of the witness below. *)
Lemma AddableDict_override_example :
  AddableDict_add py_add [("a", VInt 1); ("b", VStr "x")]
                         [("a", VStr "z"); ("b", VStr "y")]
  = inr [("a", VStr "z"); ("b", VStr "xy")].
Proof. reflexivity. Qed.

Lemma AddableDict_override_witness :
  lookup "a" [("a", VStr "z"); ("b", VStr "xy")] = Some (VStr "z") /\
  add py_add [VInt 1; VStr "z"] = inl TypeError.
Proof.
  pose proof (AddableDict_override_on_type_error py_add
                [("a", VInt 1); ("b", VStr "x")]
                [("a", VStr "z"); ("b", VStr "y")] "a" (VInt 1) (VStr "z"))
    as H.
  destruct H as (_ & Hadd & _ & Hfold & _); try reflexivity.
  - repeat constructor; simpl; intuition discriminate.
  - split; [apply Hadd; reflexivity | exact Hfold].
Defined.

(** C7, as the specification states it, fails: with the empty marker on the
    right the fold raises instead of returning [X]. *)
Lemma add_right_empty_marker_raises :
  add py_add [VInt 1; VNone] = inl TypeError /\
  add py_add [VInt 1; VNone] <> inr (VInt 1) /\
  aadd py_add [VInt 1; VNone] <> inr (VInt 1).
Proof. repeat split; discriminate. Qed.

(** C8, as the specification states it, fails: the fold of [1] and ["a"]
    raises instead of returning the right operand. *)
Lemma add_type_mismatch_raises :
  add py_add [VInt 1; VStr "a"] = inl TypeError /\
  add py_add [VInt 1; VStr "a"] <> inr (VStr "a") /\
  aadd py_add [VInt 1; VStr "a"] <> inr (VStr "a").
Proof. repeat split; discriminate. Qed.

(* ===================================================================== *)
(** ** The loop body of the translator, one entry at a time *)
(* ===================================================================== *)

Ltac bind_inv H :=
  let x := fresh "x" in
  let Hx := fresh "Hx" in
  apply bind_inr in H; destruct H as (x & Hx & H).

Lemma in_legacy_true : forall type,
  in_legacy type = inr true <-> legacy_category type.
Proof.
  intros type; unfold legacy_category; split.
  - destruct type; simpl; try discriminate.
    intros H; inversion H as [H1]; clear H.
    apply orb_true_iff in H1 as [H1|H1];
      [apply orb_true_iff in H1 as [H1|H1]|];
      apply String.eqb_eq in H1; subst; auto.
  - intros [->|[->| ->]]; reflexivity.
Qed.

Lemma in_legacy_false : forall type,
  in_legacy type = inr false -> ~ legacy_category type.
Proof.
  intros type H Hl. apply in_legacy_true in Hl. congruence.
Qed.

(** A list is true in [if x:] when it is not empty. *)
Lemma truthy_list : forall l, truthy (VList l) = true <-> l <> [].
Proof.
  intros [|x l]; simpl; split; intros H; congruence.
Qed.

(** The three [if event_type == ...] of the body are exclusive. *)
Lemma sub_run_event_blocks : forall log,
  sub_run_event log =
  (event_type <- classify log ;;
   r <- match event_type with
        | Start => start_block [] log
        | End => end_block [] log
        | Stream => stream_block log
        end ;;
   ev <- sub_run_yield (snd r) event_type (fst r) ;;
   ret (ev, snd r)).
Proof.
  intros log; unfold sub_run_event.
  destruct (classify log) as [e|[| |]]; simpl; auto.
  - destruct (start_block [] log) as [e|[d l]]; reflexivity.
  - destruct (stream_block log) as [e|[d l]]; reflexivity.
  - destruct (end_block [] log) as [e|[d l]]; reflexivity.
Qed.

Lemma sub_run_yield_inr : forall log event_type d ev,
  sub_run_yield log event_type d = inr ev ->
  kind (event ev) = event_type /\ data ev = VDict d /\
  getitem log "type" = inr (category (event ev)) /\
  getitem log "name" = inr (name ev) /\
  getitem log "id" = inr (run_id ev) /\
  getitem log "tags" = inr (tags ev) /\
  getitem log "metadata" = inr (metadata ev).
Proof.
  intros log et d ev H; unfold sub_run_yield in H.
  do 5 bind_inv H. inversion H; subst; simpl. auto 10.
Qed.

(** The kind of the event is the classification of the entry. *)
Lemma sub_run_event_kind : forall log ev log',
  sub_run_event log = inr (ev, log') ->
  classify log = inr (kind (event ev)).
Proof.
  intros log ev log' H. rewrite sub_run_event_blocks in H.
  do 3 bind_inv H. inversion H; subst.
  apply sub_run_yield_inr in Hx1 as [Hk _]. congruence.
Qed.

Lemma sub_run_event_inv : forall log ev log',
  sub_run_event log = inr (ev, log') ->
  exists d,
    match kind (event ev) with
    | Start => start_block [] log
    | End => end_block [] log
    | Stream => stream_block log
    end = inr (d, log') /\
    classify log = inr (kind (event ev)) /\
    sub_run_yield log' (kind (event ev)) d = inr ev.
Proof.
  intros log ev log' H.
  pose proof (sub_run_event_kind _ _ _ H) as Hk.
  rewrite sub_run_event_blocks in H. rewrite Hk in H. simpl in H.
  do 2 bind_inv H. inversion H; subst. destruct x as [d l]. eauto.
Qed.

(** What the classification reads. *)
Lemma classify_inr : forall log k,
  classify log = inr k ->
  exists end_time,
    getitem log "end_time" = inr end_time /\
    (if is_none end_time
     then exists streamed_output,
            getitem log "streamed_output" = inr streamed_output /\
            k = (if truthy streamed_output then Stream else Start)
     else k = End).
Proof.
  intros log k H; unfold classify in H. bind_inv H.
  exists x; split; auto.
  destruct (is_none x).
  - bind_inv H. exists x0; split; auto.
    destruct (truthy x0); inversion H; auto.
  - inversion H; auto.
Qed.

Lemma start_block_inr : forall log d l,
  start_block [] log = inr (d, l) ->
  l = log /\
  exists type inputs,
    getitem log "type" = inr type /\ getitem log "inputs" = inr inputs /\
    ((legacy_category type /\
      d = (if truthy inputs then [("input", inputs)] else [])) \/
     (~ legacy_category type /\
      exists input, getitem inputs "input" = inr input /\
                    d = [("input", input)])).
Proof.
  intros log d l H; unfold start_block in H.
  bind_inv H. bind_inv H. destruct x0.
  - apply in_legacy_true in Hx0.
    bind_inv H. destruct (truthy x0) eqn:Et.
    + bind_inv H. inversion H; subst. split; auto.
      exists x, x0. rewrite Et. repeat split; auto.
      left; split; auto. simpl. congruence.
    + inversion H; subst. split; auto.
      exists x, x0. rewrite Et. auto.
  - apply in_legacy_false in Hx0.
    do 2 bind_inv H. inversion H; subst. split; auto.
    exists x, x0. repeat split; auto. right; split; eauto.
Qed.

Lemma getitem_cleared_neq : forall log k k',
  k <> k' -> getitem (cleared k log) k' = getitem log k'.
Proof.
  intros [| | | | |d] k k' Hne; simpl; auto.
  now rewrite lookup_dict_del_neq.
Qed.


Lemma delitem_inr : forall log k l,
  delitem log k = inr l -> l = cleared k log.
Proof.
  intros log k l; destruct log as [| | | | |d]; simpl; try discriminate.
  destruct (has_key k d); [|discriminate]. now inversion 1.
Qed.

Lemma end_block_inr : forall log d l,
  end_block [] log = inr (d, l) ->
  exists type final_output inputs,
    getitem log "type" = inr type /\
    getitem log "final_output" = inr final_output /\
    getitem log "inputs" = inr inputs /\
    ((legacy_category type /\
      d = ("output", final_output)
          :: (if truthy inputs then [("input", inputs)] else []) /\
      l = (if truthy inputs
           then cleared "inputs" (cleared "final_output" log)
           else cleared "final_output" log)) \/
     (~ legacy_category type /\
      if truthy inputs
      then exists input,
             getitem inputs "input" = inr input /\
             d = new_style_output final_output ++ [("input", input)] /\
             l = cleared "inputs" (new_style_taken final_output log)
      else d = new_style_output final_output /\
           l = new_style_taken final_output log)).
Proof.
  intros log d l H; unfold end_block in H.
  bind_inv H. bind_inv H. destruct x0.
  - apply in_legacy_true in Hx0.
    do 3 bind_inv H. apply delitem_inr in Hx2; subst x1.
    rewrite getitem_cleared_neq in Hx3 by discriminate.
    exists x, x0, x2. repeat split; auto. left; split; auto.
    destruct (truthy x2).
    + do 2 bind_inv H. inversion H; subst.
      apply delitem_inr in Hx4; subst.
      rewrite getitem_cleared_neq in Hx2 by discriminate.
      split; auto. simpl. congruence.
    + inversion H; subst; auto.
  - apply in_legacy_false in Hx0.
    do 2 bind_inv H. destruct x1 as [d1 l1].
    assert (Hd1 : d1 = new_style_output x0 /\ l1 = new_style_taken x0 log).
    { destruct x0; simpl in Hx2; try (inversion Hx2; subst; auto; fail).
      bind_inv Hx2. inversion Hx2; subst.
      apply delitem_inr in Hx3; subst. auto. }
    destruct Hd1; subst d1 l1. clear Hx2.
    bind_inv H.
    assert (Hin : getitem log "inputs" = inr x1).
    { destruct x0; simpl in Hx2; auto.
      now rewrite getitem_cleared_neq in Hx2 by discriminate. }
    exists x, x0, x1. repeat split; auto. right; split; auto.
    destruct (truthy x1).
    + do 3 bind_inv H. inversion H; subst.
      apply delitem_inr in Hx5; subst.
      assert (x2 = x1) by congruence; subst x2.
      exists x3. repeat split; auto.
      destruct x0; reflexivity.
    + inversion H; subst; auto.
Qed.


Lemma setitem_getitem_neq : forall x k v x' k',
  setitem x k v = inr x' -> k <> k' -> getitem x' k' = getitem x k'.
Proof.
  intros x k v x' k' H Hne; destruct x; simpl in H; try discriminate.
  inversion H; subst; simpl. now rewrite lookup_dict_set_neq.
Qed.



(* ===================================================================== *)
(** ** Start and end events of a sub-run *)
(* ===================================================================== *)

(** C4: a start event of a sub-run leaves the entry as it is, inputs
    included.  For a legacy category ([retriever], [tool], [llm]) the data
    hold the inputs under [input] when the inputs are present (not empty),
    and nothing otherwise; for any other category the data hold
    [inputs["input"]] under [input]. *)
Theorem start_event_input : forall log ev log',
  sub_run_event log = inr (ev, log') ->
  kind (event ev) = Start ->
  log' = log /\
  exists type inputs,
    getitem log "type" = inr type /\ getitem log "inputs" = inr inputs /\
    ((legacy_category type /\
      data ev = VDict (if truthy inputs then [("input", inputs)] else [])) \/
     (~ legacy_category type /\
      exists input, getitem inputs "input" = inr input /\
                    data ev = VDict [("input", input)])).
Proof.
  intros log ev log' H Hk.
  apply sub_run_event_inv in H as (d & Hb & _ & Hy).
  rewrite Hk in Hb. apply start_block_inr in Hb as (-> & type & inputs & Hb).
  apply sub_run_yield_inr in Hy as (_ & Hd & _).
  split; auto. exists type, inputs. rewrite Hd.
  destruct Hb as (Ht & Hi & [[Hl ->]|[Hl (input & Hin & ->)]]); eauto 10.
Qed.


Lemma start_event_input_witness :
  let log := log_entry "s1" "search" "tool" [] VNone
               (VDict [("query", VStr "rocq")]) VNone in
  let ev := sample_event "s1" "search" "tool" Start
              [("input", VDict [("query", VStr "rocq")])] in
  sub_run_event log = inr (ev, log) /\
  exists type inputs,
    getitem log "type" = inr type /\ getitem log "inputs" = inr inputs /\
    ((legacy_category type /\
      data ev = VDict (if truthy inputs then [("input", inputs)] else [])) \/
     (~ legacy_category type /\
      exists input, getitem inputs "input" = inr input /\
                    data ev = VDict [("input", input)])).
Proof.
  intros log ev. split; [reflexivity|].
  exact (proj2 (start_event_input log ev log eq_refl eq_refl)).
Defined.


(* ===================================================================== *)
(** ** After the end of a sub-run *)
(* ===================================================================== *)






(* ===================================================================== *)
(** ** The single-chunk check *)
(* ===================================================================== *)









(* ===================================================================== *)
(** ** One patch *)
(* ===================================================================== *)

Lemma for_path_inv : forall state path evs r,
  for_path state path = (evs, r) ->
  (evs = [] /\ exists e, r = inl e) \/
  (exists d l log ev log',
     state = VDict d /\ lookup "logs" d = Some (VDict l) /\
     lookup path l = Some log /\
     sub_run_event log = inr (ev, log') /\
     evs = [(SubRun path, ev)] /\
     r = inr (VDict (dict_set "logs" (VDict (dict_set path log' l)) d))).
Proof.
  intros state path evs r H. unfold for_path in H.
  rewrite gbind_lift in H.
  destruct (getitem state "logs") as [e|logs] eqn:Hl;
    [inversion H; subst; left; eauto|].
  rewrite gbind_lift in H.
  destruct (getitem logs path) as [e|log] eqn:Hp;
    [inversion H; subst; left; eauto|].
  rewrite gbind_lift in H.
  destruct (sub_run_event log) as [e|[ev log']] eqn:He;
    [inversion H; subst; left; eauto|].
  simpl in H. inversion H; subst. right.
  apply getitem_inr in Hl as (d & -> & Hl).
  apply getitem_inr in Hp as (l & -> & Hp).
  exists d, l, log, ev, log'. simpl. rewrite Hl. auto 10.
Qed.

(** The events of the loop over the paths: one per path, in the order of the
    walk, each built from the entry the state held under the path when the
    loop began. *)
Lemma for_paths_events : forall paths state evs r,
  for_paths state paths = (evs, r) ->
  (forall o ev, In (o, ev) evs -> exists path, o = SubRun path /\ In path paths) /\
  (NoDup paths ->
   forall path ev, In (SubRun path, ev) evs ->
     exists logs log log',
       getitem state "logs" = inr logs /\ getitem logs path = inr log /\
       sub_run_event log = inr (ev, log')) /\
  (forall state', r = inr state' ->
     map fst evs = map SubRun paths /\
     forall k, k <> "logs" -> getitem state' k = getitem state k).
Proof.
  induction paths as [|p rest IH]; intros state evs r H.
  - simpl in H. inversion H; subst. repeat split.
    + intros o ev [].
    + intros _ path ev [].
    + inversion H0; subst; auto.
  - simpl in H.
    apply gbind_inv in H as [(e & H1 & ->)|(evs1 & st1 & evs2 & H1 & H2 & ->)].
    + apply for_path_inv in H1
        as [(-> & _)|(d & l & log & ev & log' & _ & _ & _ & _ & _ & Hr)];
        [|discriminate].
      repeat split; try (intros; contradiction); discriminate.
    + apply for_path_inv in H1
        as [(_ & e & He)|(d & l & log & ev & log' & -> & Hl & Hp & He & -> & Hr)];
        [discriminate|].
      inversion Hr; subst st1; clear Hr.
      destruct (IH _ _ _ H2) as (IHo & IHev & IHst).
      repeat split.
      * intros o ev' [Hin|Hin].
        { inversion Hin; subst. exists p; simpl; auto. }
        destruct (IHo _ _ Hin) as (q & -> & Hq). exists q; simpl; auto.
      * intros Hnd q ev' Hin.
        inversion Hnd as [|? ? Hnotin Hnd']; subst.
        destruct Hin as [Hin|Hin].
        { inversion Hin; subst. exists (VDict l), log, log'.
          simpl. rewrite Hl, Hp. auto. }
        destruct (IHo _ _ Hin) as (q' & Hq' & Hq). inversion Hq'; subst q'.
        destruct (IHev Hnd' _ _ Hin) as (logs & lg & lg' & Hlogs & Hlg & Hev).
        exists (VDict l), lg, lg'. simpl in Hlogs.
        rewrite lookup_dict_set_eq in Hlogs. inversion Hlogs; subst logs.
        simpl in Hlg. rewrite lookup_dict_set_neq in Hlg
          by (intros ->; contradiction).
        simpl. rewrite Hl. auto.
      * simpl. destruct (IHst _ H) as (Hm & _). now rewrite Hm.
      * intros k Hne. destruct (IHst _ H) as (_ & Hk).
        rewrite (Hk k Hne). simpl. rewrite lookup_dict_set_neq; auto.
Qed.

Lemma root_start_inv : forall state yielded evs r,
  root_start state yielded = (evs, r) ->
  (yielded = true /\ evs = [] /\ r = inr true) \/
  (yielded = false /\
   ((evs = [] /\ exists e, r = inl e) \/
    (evs = [] /\ r = inr false /\ py_contains "id" state = inr false) \/
    (exists ev, evs = [(Root, ev)] /\ r = inr true /\
                py_contains "id" state = inr true /\
                kind (event ev) = Start /\ data ev = VDict [] /\
                tags ev = VList [] /\ metadata ev = VDict [] /\
                getitem state "id" = inr (run_id ev)))).
Proof.
  intros state yielded evs r H. unfold root_start in H.
  destruct yielded; cbn [negb] in H.
  - inversion H; auto.
  - right; split; auto.
    rewrite gbind_lift in H.
    destruct (py_copy state) as [e|st] eqn:Hc;
      [inversion H; subst; eauto|].
    assert (st = state)
      by (unfold py_copy, ret, raise in Hc; destruct state; congruence).
    subst st. rewrite gbind_lift in H.
    destruct (py_contains "id" state) as [e|[|]] eqn:Hi;
      [inversion H; subst; eauto| |inversion H; subst; auto].
    rewrite gbind_lift in H.
    destruct (getitem state "type") as [e|ty]; [inversion H; subst; eauto|].
    rewrite gbind_lift in H.
    destruct (getitem state "name") as [e|nm]; [inversion H; subst; eauto|].
    rewrite gbind_lift in H.
    destruct (getitem state "id") as [e|id]; [inversion H; subst; eauto|].
    simpl in H. inversion H; subst. right; right.
    eexists; repeat split.
Qed.

Lemma root_stream_inv : forall state evs r,
  root_stream state = (evs, r) ->
  (evs = [] /\ exists e, r = inl e) \/
  (evs = [] /\ r = inr state /\ exists d, state = VDict d) \/
  (exists ev state' id,
     evs = [(Root, ev)] /\ r = inr state' /\
     kind (event ev) = Stream /\ getitem state "id" = inr id /\
     forall k, k <> "streamed_output" -> getitem state' k = getitem state k).
Proof.
  intros state evs r H. unfold root_stream in H.
  rewrite gbind_lift in H.
  destruct (getitem state "streamed_output") as [e|so] eqn:Hs;
    [inversion H; subst; eauto|].
  destruct (truthy so);
    [|inversion H; subst; right; left; repeat split; auto;
      apply getitem_inr in Hs as (d & -> & _); eauto].
  rewrite gbind_lift in H.
  destruct (py_len so) as [e|n]; [inversion H; subst; eauto|].
  destruct (negb (Nat.eqb n 1)).
  { rewrite gbind_lift in H.
    destruct (getitem state "name"); simpl in H; inversion H; subst; eauto. }
  rewrite gbind_lift in H. rewrite gbind_lift in H.
  destruct (getitem0 so) as [e|chunk]; [inversion H; subst; eauto|].
  rewrite gbind_lift in H.
  destruct (setitem state "streamed_output" (VList [])) as [e|st'] eqn:Hset;
    [inversion H; subst; eauto|].
  rewrite gbind_lift in H.
  destruct (getitem st' "type") as [e|ty]; [inversion H; subst; eauto|].
  rewrite gbind_lift in H.
  destruct (getitem st' "name") as [e|nm]; [inversion H; subst; eauto|].
  rewrite gbind_lift in H.
  destruct (getitem st' "id") as [e|id] eqn:Hid; [inversion H; subst; eauto|].
  rewrite gbind_lift in H.
  destruct (py_get st' "tags" (VList [])) as [e|tg]; [inversion H; subst; eauto|].
  rewrite gbind_lift in H.
  destruct (py_get st' "metadata" (VDict [])) as [e|md];
    [inversion H; subst; eauto|].
  simpl in H. inversion H; subst. right; right.
  eexists; exists st', id. repeat split.
  - rewrite <- Hid. symmetry.
    apply (setitem_getitem_neq _ _ _ _ _ Hset). discriminate.
  - intros k Hne. now apply (setitem_getitem_neq _ _ _ _ _ Hset).
Qed.

Lemma final_event_inv : forall state evs r,
  final_event state = (evs, r) ->
  (evs = [] /\ exists e, r = inl e) \/
  (exists ev final_output,
     evs = [(Root, ev)] /\ r = inr tt /\
     kind (event ev) = End /\
     tags ev = VList [] /\ metadata ev = VDict [] /\
     getitem state "final_output" = inr final_output /\
     data ev = VDict [("output", final_output)] /\
     getitem state "id" = inr (run_id ev)).
Proof.
  intros state evs r H. unfold final_event in H.
  rewrite gbind_lift in H.
  destruct (py_copy state) as [e|st] eqn:Hc;
    [inversion H; subst; eauto|].
  assert (st = state)
    by (unfold py_copy, ret, raise in Hc; destruct state; congruence).
  subst st. rewrite gbind_lift in H.
  destruct state as [| | | | |d]; cbn [py_update ret raise] in H;
    try (inversion H; subst; eauto; fail).
  cbn [fold_left fst snd] in H.
  rewrite gbind_lift in H. simpl getitem in H.
  rewrite !lookup_dict_set_neq in H by discriminate.
  rewrite !lookup_dict_set_eq in H.
  destruct (lookup "final_output" d) as [fo|] eqn:Hfo;
    [|inversion H; subst; eauto].
  destruct (lookup "type" d) as [ty|];
    [|simpl in H; inversion H; subst; eauto].
  destruct (lookup "name" d) as [nm|];
    [|simpl in H; inversion H; subst; eauto].
  destruct (lookup "id" d) as [id|] eqn:Hid;
    [|simpl in H; inversion H; subst; eauto].
  simpl in H. inversion H; subst. right.
  eexists; exists fo. simpl. rewrite Hfo, Hid. repeat split.
Qed.

Lemma no_id_after_contains : forall state,
  py_contains "id" state = inr false ->
  forall v, getitem state "id" <> inr v.
Proof.
  intros state H v. destruct state; simpl in *; try discriminate.
  unfold has_key in H. destruct (lookup "id" d); [discriminate|].
  discriminate.
Qed.

Lemma no_root_event_app : forall evs1 evs2,
  no_root_event evs1 -> no_root_event evs2 -> no_root_event (evs1 ++ evs2).
Proof.
  intros evs1 evs2 H1 H2 o ev Hin.
  apply in_app_or in Hin as [Hin|Hin]; eauto.
Qed.

Lemma only_root_streams_app : forall evs1 evs2,
  only_root_streams evs1 -> only_root_streams evs2 ->
  only_root_streams (evs1 ++ evs2).
Proof.
  intros evs1 evs2 H1 H2 ev Hin.
  apply in_app_or in Hin as [Hin|Hin]; eauto.
Qed.

Lemma no_root_event_streams : forall evs,
  no_root_event evs -> only_root_streams evs.
Proof. intros evs H ev Hin. apply H in Hin. discriminate. Qed.

Lemma root_started_app_l : forall evs1 evs2,
  no_root_event evs1 -> root_started evs2 -> root_started (evs1 ++ evs2).
Proof.
  intros evs1 evs2 H1 (pre & start & rest & -> & Hp & Hk & Hd & Hr).
  exists (evs1 ++ pre), start, rest. rewrite app_assoc.
  repeat split; auto using no_root_event_app.
Qed.

Lemma root_started_app_r : forall evs1 evs2,
  root_started evs1 -> only_root_streams evs2 -> root_started (evs1 ++ evs2).
Proof.
  intros evs1 evs2 (pre & start & rest & -> & Hp & Hk & Hd & Hr) H2.
  exists pre, start, (rest ++ evs2). rewrite <- app_assoc.
  repeat split; auto using only_root_streams_app.
Qed.

(* ===================================================================== *)
(** ** The translator *)
(* ===================================================================== *)

Section TranslatorFacts.

Variable RunLog_add : value -> RunLogPatch -> M value.
Variable set_iter : list string -> list string.

(** The parts of one round of the loop over the patches. *)
Lemma patch_step_inv : forall run_log yielded log evs r,
  patch_step RunLog_add set_iter run_log yielded log = (evs, r) ->
  (evs = [] /\ exists e, RunLog_add run_log log = inl e /\ r = inl e) \/
  exists state evs1 r1,
    RunLog_add run_log log = inr state /\
    root_start state yielded = (evs1, r1) /\
    ((evs = evs1 /\ exists e, r1 = inl e /\ r = inl e) \/
     exists yielded' evs2 r2,
       r1 = inr yielded' /\
       for_paths state (set_iter (touched log)) = (evs2, r2) /\
       ((evs = evs1 ++ evs2 /\ exists e, r2 = inl e /\ r = inl e) \/
        exists state2 evs3 r3,
          r2 = inr state2 /\
          root_stream state2 = (evs3, r3) /\
          evs = evs1 ++ evs2 ++ evs3 /\
          r = match r3 with
              | inl e => inl e
              | inr state3 => inr (state3, yielded')
              end)).
Proof.
  intros run_log yielded log evs r H. unfold patch_step in H.
  rewrite gbind_lift in H.
  destruct (RunLog_add run_log log) as [e|state];
    [inversion H; subst; left; eauto|].
  right. exists state.
  apply gbind_inv in H as [(e & H1 & ->)|(evs1 & y' & evs' & H1 & H2 & ->)].
  { exists evs, (inl e). repeat split; auto. left; eauto. }
  exists evs1, (inr y'). repeat split; auto. right.
  exists y'.
  apply gbind_inv in H2 as [(e & H2 & ->)|(evs2 & st2 & evs'' & H2 & H3 & ->)].
  { exists evs', (inl e). repeat split; auto. left; eauto. }
  exists evs2, (inr st2). repeat split; auto. right.
  exists st2.
  apply gbind_inv in H3 as [(e & H3 & ->)|(evs3 & st3 & evs4 & H3 & H4 & ->)].
  { exists evs'', (inl e). repeat split; auto. }
  exists evs3, (inr st3). simpl in H4. inversion H4; subst.
  rewrite app_nil_r. repeat split; auto.
Qed.

(** C1: the events one patch yields for sub-runs.  Each comes from a path
    segment the patch touches, and its kind is read off the entry that the
    merged state holds under that segment: with a null end time, stream when
    the buffer of chunks is not empty ([truthy], see [truthy_list]) and
    start when it is; end with any other end time.  When the round
    completes, the segments get one event each, in the order of the walk. *)
Theorem event_kind_from_merged_state :
  forall run_log yielded log state evs r,
  RunLog_add run_log log = inr state ->
  NoDup (set_iter (touched log)) ->
  (forall p, In p (set_iter (touched log)) <-> In p (touched log)) ->
  patch_step RunLog_add set_iter run_log yielded log = (evs, r) ->
  (forall path ev, In (SubRun path, ev) evs ->
     In path (touched log) /\
     exists logs entry end_time,
       getitem state "logs" = inr logs /\ getitem logs path = inr entry /\
       getitem entry "end_time" = inr end_time /\
       if is_none end_time
       then exists streamed_output,
              getitem entry "streamed_output" = inr streamed_output /\
              kind (event ev) = (if truthy streamed_output then Stream
                                 else Start)
       else kind (event ev) = End) /\
  (forall x, r = inr x ->
     map fst (filter (fun e => negb (is_root (fst e))) evs)
     = map SubRun (set_iter (touched log))).
Proof.
  intros run_log yielded log state evs r Hadd Hnd Hset H.
  apply patch_step_inv in H
    as [(_ & e & He & _)|(st & evs1 & r1 & Hst & H1 & H)]; [congruence|].
  assert (st = state) by congruence; subst st.
  assert (Hroot1 : forall o ev, In (o, ev) evs1 -> o = Root).
  { intros o ev Hin.
    apply root_start_inv in H1
      as [(_ & -> & _)|(_ & [(-> & _)|[(-> & _)|(e & -> & _)]])];
      try contradiction.
    destruct Hin as [Hin|[]]; congruence. }
  assert (Hf1 : filter (fun e => negb (is_root (fst e))) evs1 = []).
  { clear - Hroot1. induction evs1 as [|[o ev] evs1 IH]; auto.
    simpl. rewrite (Hroot1 o ev) by (simpl; auto). simpl.
    apply IH. intros; eapply Hroot1; simpl; eauto. }
  assert (Hsub : forall evs2 r2 path ev,
            for_paths state (set_iter (touched log)) = (evs2, r2) ->
            In (SubRun path, ev) evs2 ->
            In path (touched log) /\
            exists logs entry end_time,
              getitem state "logs" = inr logs /\ getitem logs path = inr entry /\
              getitem entry "end_time" = inr end_time /\
              if is_none end_time
              then exists streamed_output,
                     getitem entry "streamed_output" = inr streamed_output /\
                     kind (event ev) = (if truthy streamed_output then Stream
                                        else Start)
              else kind (event ev) = End).
  { intros evs2 r2 path ev H2 Hin.
    destruct (for_paths_events _ _ _ _ H2) as (Ho & Hev & _).
    destruct (Ho _ _ Hin) as (q & Hq & Hqin). inversion Hq; subst q.
    split; [now apply Hset|].
    destruct (Hev Hnd _ _ Hin) as (logs & entry & entry' & Hl & Hp & He).
    apply sub_run_event_kind in He.
    apply classify_inr in He as (end_time & Het & Hk).
    exists logs, entry, end_time. auto. }
  destruct H as [(-> & e & -> & ->)|(y' & evs2 & r2 & -> & H2 & H)].
  { split; [|discriminate].
    intros path ev Hin. apply Hroot1 in Hin. discriminate. }
  destruct H as [(-> & e & -> & ->)|(st2 & evs3 & r3 & -> & H3 & -> & ->)].
  { split; [|discriminate].
    intros path ev Hin. apply in_app_or in Hin as [Hin|Hin].
    - apply Hroot1 in Hin. discriminate.
    - eapply Hsub; eauto. }
  assert (Hroot3 : forall o ev, In (o, ev) evs3 -> o = Root).
  { intros o ev Hin.
    apply root_stream_inv in H3
      as [(-> & _)|[(-> & _)|(e & st' & id & -> & _)]];
      try contradiction.
    destruct Hin as [Hin|[]]; congruence. }
  split.
  - intros path ev Hin. apply in_app_or in Hin as [Hin|Hin].
    { apply Hroot1 in Hin. discriminate. }
    apply in_app_or in Hin as [Hin|Hin].
    { eapply Hsub; eauto. }
    apply Hroot3 in Hin. discriminate.
  - intros x _.
    destruct (for_paths_events _ _ _ _ H2) as (Ho & _ & Hst2).
    destruct (Hst2 _ eq_refl) as (Hm & _).
    rewrite !filter_app, Hf1. simpl.
    assert (Hf3 : filter (fun e => negb (is_root (fst e))) evs3 = []).
    { clear - Hroot3. induction evs3 as [|[o ev] evs3 IH]; auto.
      simpl. rewrite (Hroot3 o ev) by (simpl; auto). simpl.
      apply IH. intros; eapply Hroot3; simpl; eauto. }
    rewrite Hf3, app_nil_r.
    assert (Hf2 : filter (fun e => negb (is_root (fst e))) evs2 = evs2).
    { clear - Ho. induction evs2 as [|[o ev] evs2 IH]; auto.
      simpl. destruct (Ho o ev) as (q & -> & _); [simpl; auto|].
      simpl. f_equal. apply IH. intros; eapply Ho; simpl; eauto. }
    now rewrite Hf2.
Qed.

(** What one round of the loop does to the bracket of the root. *)
Lemma patch_step_bracket : forall run_log yielded log evs state' yielded',
  patch_step RunLog_add set_iter run_log yielded log
    = (evs, inr (state', yielded')) ->
  (yielded = true -> yielded' = true /\ only_root_streams evs) /\
  (yielded = false ->
   (yielded' = false /\ no_root_event evs /\
    forall v, getitem state' "id" <> inr v) \/
   (yielded' = true /\ root_started evs)).
Proof.
  intros run_log yielded log evs state' yielded' H.
  apply patch_step_inv in H
    as [(_ & e & _ & He)|(st & evs1 & r1 & Hst & H1 & H)]; [discriminate|].
  destruct H as [(_ & e & _ & He)|(y' & evs2 & r2 & -> & H2 & H)];
    [discriminate|].
  destruct H as [(_ & e & _ & He)|(st2 & evs3 & r3 & -> & H3 & -> & Hr)];
    [discriminate|].
  destruct r3 as [e|st3]; [discriminate|].
  inversion Hr; subst st3 y'; clear Hr.
  destruct (for_paths_events _ _ _ _ H2) as (Ho & _ & Hst2).
  destruct (Hst2 _ eq_refl) as (_ & Hsame).
  assert (Hno2 : no_root_event evs2).
  { intros o ev Hin. destruct (Ho _ _ Hin) as (q & -> & _). reflexivity. }
  apply root_stream_inv in H3
    as [(_ & e & He)|[(-> & Hr & _)|(ev3 & st' & id & -> & Hr & Hk3 & Hid & Hsame3)]];
    [discriminate| |]; inversion Hr; subst; clear Hr.
  - (* no chunk at the root *)
    assert (Hs23 : only_root_streams (evs2 ++ [])).
    { rewrite app_nil_r. now apply no_root_event_streams. }
    apply root_start_inv in H1
      as [(-> & -> & Hr)|(-> & [(_ & e & He)|[(-> & Hr & Hc)|(ev & -> & Hr & Hc & Hk & Hd & _)]])];
      try discriminate; inversion Hr; subst; clear Hr.
    + split; [auto|discriminate].
    + split; [discriminate|]. intros _. left.
      rewrite app_nil_r. repeat split; auto.
      intros v. rewrite Hsame by discriminate.
      now apply no_id_after_contains.
    + split; [discriminate|]. intros _. right. split; auto.
      exists [], ev, (evs2 ++ []). repeat split; auto.
      intros o e' [].
  - (* one chunk at the root *)
    assert (Hs23 : only_root_streams (evs2 ++ [(Root, ev3)])).
    { apply only_root_streams_app; [now apply no_root_event_streams|].
      intros e' [Hin|[]]. inversion Hin; subst; auto. }
    apply root_start_inv in H1
      as [(-> & -> & Hr)|(-> & [(_ & e & He)|[(-> & Hr & Hc)|(ev & -> & Hr & Hc & Hk & Hd & _)]])];
      try discriminate; inversion Hr; subst; clear Hr.
    + split; [auto|discriminate].
    + exfalso. rewrite Hsame in Hid by discriminate.
      exact (no_id_after_contains _ Hc _ Hid).
    + split; [discriminate|]. intros _. right. split; auto.
      exists [], ev, (evs2 ++ [(Root, ev3)]). repeat split; auto.
      intros o e' [].
Qed.

Lemma patch_loop_bracket : forall patches run_log yielded evs state' yielded',
  patch_loop RunLog_add set_iter run_log yielded patches
    = (evs, inr (state', yielded')) ->
  (yielded = false -> forall v, getitem run_log "id" <> inr v) ->
  (yielded = true -> yielded' = true /\ only_root_streams evs) /\
  (yielded = false ->
   (yielded' = false /\ no_root_event evs /\
    forall v, getitem state' "id" <> inr v) \/
   (yielded' = true /\ root_started evs)).
Proof.
  induction patches as [|log rest IH];
    intros run_log yielded evs state' yielded' H Hid.
  - simpl in H. inversion H; subst. split.
    + intros Hy. split; auto. intros ev Hin; inversion Hin.
    + intros Hy. left. split; [auto|split; [|auto]].
      intros o ev Hin; inversion Hin.
  - simpl in H.
    apply gbind_inv in H as [(e & _ & He)|(evs1 & [st1 y1] & evs2 & H1 & H2 & ->)];
      [discriminate|].
    simpl in H2.
    destruct (patch_step_bracket _ _ _ _ _ _ H1) as [Ht Hf].
    split.
    + intros Hy. destruct (Ht Hy) as [-> Hs1].
      destruct (IH _ _ _ _ _ H2) as [IHt _]; [discriminate|].
      destruct (IHt eq_refl) as [-> Hs2].
      split; auto using only_root_streams_app.
    + intros Hy.
      destruct (Hf Hy) as [(-> & Hn1 & Hid1)|(-> & Hst1)].
      * destruct (IH _ _ _ _ _ H2) as [_ IHf]; [auto|].
        destruct (IHf eq_refl) as [(-> & Hn2 & Hid2)|(-> & Hst2)].
        { left. repeat split; auto using no_root_event_app. }
        right. split; auto. now apply root_started_app_l.
      * destruct (IH _ _ _ _ _ H2) as [IHt _]; [discriminate|].
        destruct (IHt eq_refl) as [-> Hs2].
        right. split; auto. now apply root_started_app_r.
Qed.

(** The events of one round, however the round stops. *)
Lemma patch_step_events : forall run_log yielded log evs r,
  patch_step RunLog_add set_iter run_log yielded log = (evs, r) ->
  (yielded = true -> only_root_streams evs) /\
  (yielded = false -> no_root_event evs \/ root_started evs).
Proof.
  intros run_log yielded log evs r H.
  assert (Hnil : only_root_streams [] /\ no_root_event [])
    by (split; intros ? **; contradiction).
  destruct Hnil as [Hs0 Hn0].
  apply patch_step_inv in H
    as [(-> & _)|(st & evs1 & r1 & Hst & H1 & H)]; [auto|].
  apply root_start_inv in H1.
  assert (Hrest : forall evs23,
            (exists evs2 r2 evs3,
               for_paths st (set_iter (touched log)) = (evs2, r2) /\
               evs23 = evs2 ++ evs3 /\
               (evs3 = [] \/
                exists st2 r3, r2 = inr st2 /\ root_stream st2 = (evs3, r3))) ->
            only_root_streams evs23 /\
            (py_contains "id" st = inr false -> no_root_event evs23)).
  { intros evs23 (evs2 & r2 & evs3 & H2 & -> & H3).
    destruct (for_paths_events _ _ _ _ H2) as (Ho & _ & Hst2).
    assert (Hno2 : no_root_event evs2).
    { intros o ev Hin. destruct (Ho _ _ Hin) as (q & -> & _). reflexivity. }
    destruct H3 as [->|(st2 & r3 & -> & H3)].
    { rewrite app_nil_r. split; auto using no_root_event_streams. }
    destruct (Hst2 _ eq_refl) as (_ & Hsame).
    apply root_stream_inv in H3
      as [(-> & _)|[(-> & _)|(ev3 & st' & id & -> & _ & Hk3 & Hid & _)]];
      try (rewrite app_nil_r; split; auto using no_root_event_streams; fail).
    split.
    - apply only_root_streams_app; [now apply no_root_event_streams|].
      intros e' [Hin|[]]. inversion Hin; subst; auto.
    - intros Hc. exfalso. rewrite Hsame in Hid by discriminate.
      exact (no_id_after_contains _ Hc _ Hid). }
  assert (H23 : exists evs23,
            evs = evs1 ++ evs23 /\
            ((exists e, r1 = inl e) -> evs23 = []) /\
            only_root_streams evs23 /\
            (py_contains "id" st = inr false -> no_root_event evs23)).
  { destruct H as [(-> & _)|(y' & evs2 & r2 & -> & H2 & H)].
    - exists []. rewrite app_nil_r. auto.
    - destruct H as [(-> & _)|(st2 & evs3 & r3 & -> & H3 & -> & _)].
      + exists evs2. split; [auto|]. split; [intros (e & He); discriminate|].
        apply Hrest. exists evs2, r2, []. rewrite app_nil_r. auto.
      + exists (evs2 ++ evs3). split; [auto|].
        split; [intros (e & He); discriminate|].
        apply Hrest. exists evs2, (inr st2), evs3. repeat split; auto.
        right. eauto. }
  destruct H23 as (evs23 & -> & Hnil & Hs23 & Hn23).
  destruct H1
    as [(-> & -> & _)|(-> & [(-> & He)|[(-> & _ & Hc)|(ev & -> & _ & _ & Hk & Hd & _)]])].
  - split; [auto|discriminate].
  - split; [discriminate|]. intros _. left. rewrite (Hnil He). auto.
  - split; [discriminate|]. intros _. left. simpl. auto.
  - split; [discriminate|]. intros _. right.
    exists [], ev, evs23. repeat split; auto.
Qed.

(** The events of the loop, however it stops. *)
Lemma patch_loop_events : forall patches run_log yielded evs r,
  patch_loop RunLog_add set_iter run_log yielded patches = (evs, r) ->
  (yielded = true -> only_root_streams evs) /\
  (yielded = false -> no_root_event evs \/ root_started evs).
Proof.
  induction patches as [|log rest IH]; intros run_log yielded evs r H.
  - simpl in H. inversion H; subst. split.
    + intros _ ev Hin; inversion Hin.
    + intros _. left. intros o ev Hin; inversion Hin.
  - simpl in H.
    apply gbind_inv in H
      as [(e & H1 & _)|(evs1 & [st1 y1] & evs2 & H1 & H2 & ->)].
    + exact (patch_step_events _ _ _ _ _ H1).
    + simpl in H2.
      destruct (patch_step_bracket _ _ _ _ _ _ H1) as [Ht Hf].
      destruct (IH _ _ _ _ H2) as [IHt IHf].
      split.
      * intros Hy. destruct (Ht Hy) as [-> Hs1].
        auto using only_root_streams_app.
      * intros Hy.
        destruct (Hf Hy) as [(-> & Hn1 & _)|(-> & Hst1)].
        { destruct (IHf eq_refl) as [Hn2|Hst2].
          - left. now apply no_root_event_app.
          - right. now apply root_started_app_l. }
        right. apply root_started_app_r; auto.
Qed.

(** C3 (as amended): the events of the root in a run of the translator.
    However the run stops, there is at most one start event of the root,
    with empty data, and no event of the root comes before it; while the
    loop runs, the other events of the root are stream events.  The start
    event is yielded by the first round whose merged state has an [id], and
    by no later round.  A run that finishes without raising had at least
    one patch, has yielded the start event, and ends with the end event of
    the root, whose tags and metadata are empty and whose output is the
    final output of the merged root state.  A run that raises yields no end
    event. *)
Theorem root_bracketing : forall patches evs r,
  as_event_stream RunLog_add set_iter patches = (evs, r) ->
  match r with
  | inl _ => no_root_event evs \/ root_started evs
  | inr _ =>
      patches <> [] /\
      exists before end_event state yielded final_output,
        patch_loop RunLog_add set_iter VNone false patches
          = (before, inr (state, yielded)) /\
        evs = before ++ [(Root, end_event)] /\
        root_started before /\
        kind (event end_event) = End /\
        tags end_event = VList [] /\ metadata end_event = VDict [] /\
        getitem state "final_output" = inr final_output /\
        data end_event = VDict [("output", final_output)]
  end /\
  (forall state, root_start state true = ([], inr true)) /\
  (forall state evs' yielded',
     root_start state false = (evs', inr yielded') ->
     py_contains "id" state = inr yielded' /\
     if yielded'
     then exists start, evs' = [(Root, start)] /\ kind (event start) = Start
                        /\ data start = VDict []
     else evs' = []).
Proof.
  intros patches evs r H. unfold as_event_stream in H.
  split; [|split].
  - apply gbind_inv in H
      as [(e & H1 & ->)|(before & [state yielded] & evs1 & H1 & H2 & ->)].
    { exact (proj2 (patch_loop_events _ _ _ _ _ H1) eq_refl). }
    simpl in H2.
    apply final_event_inv in H2
      as [(-> & e & ->)|(ev & fo & -> & -> & Hk & Ht & Hm & Hfo & Hd & Hid)].
    { rewrite app_nil_r.
      exact (proj2 (patch_loop_events _ _ _ _ _ H1) eq_refl). }
    destruct (patch_loop_bracket _ _ _ _ _ _ H1) as [_ Hb];
      [intros _ v; discriminate|].
    destruct (Hb eq_refl) as [(_ & _ & Hno)|(-> & Hst)];
      [elim (Hno _ Hid)|].
    split.
    + intros ->. simpl in H1. inversion H1.
    + exists before, ev, state, true, fo. auto 10.
  - reflexivity.
  - intros st evs' y' Hs.
    apply root_start_inv in Hs
      as [(Hy & _)|(_ & [(_ & e & He)|[(-> & Hr & Hc)|(start & -> & Hr & Hc & Hks & Hds & _)]])];
      try discriminate; inversion Hr; subst; eauto.
Qed.

(** C10: with no patch at all the state of the run log is still [None]
    when the loop is over, and the code after the loop raises on
    [run_log.state.copy()] without yielding an event. *)
Theorem empty_stream_raises :
  patch_loop RunLog_add set_iter VNone false [] = ([], inr (VNone, false)) /\
  final_event VNone = ([], inl AttributeError) /\
  as_event_stream RunLog_add set_iter [] = ([], inl AttributeError).
Proof. repeat split. Qed.

Lemma gbind_assoc : forall A B C (m : G A) (f : A -> G B) (g : B -> G C),
  gbind (gbind m f) g = gbind m (fun x => gbind (f x) g).
Proof.
  intros A B C [evs [e|a]] f g; simpl; auto.
  destruct (f a) as [evs1 [e|b]]; simpl; auto.
  destruct (g b) as [evs2 r]. now rewrite app_assoc.
Qed.

Lemma gbind_ext : forall A B (m : G A) (f g : A -> G B),
  (forall a, f a = g a) -> gbind m f = gbind m g.
Proof.
  intros A B [evs [e|a]] f g H; simpl; auto. now rewrite H.
Qed.

Lemma patch_loop_app : forall l1 l2 run_log yielded,
  patch_loop RunLog_add set_iter run_log yielded (l1 ++ l2) =
  gbind (patch_loop RunLog_add set_iter run_log yielded l1)
        (fun r => patch_loop RunLog_add set_iter (fst r) (snd r) l2).
Proof.
  induction l1 as [|log l1 IH]; intros l2 run_log yielded; simpl.
  - destruct (patch_loop RunLog_add set_iter run_log yielded l2); reflexivity.
  - rewrite gbind_assoc. apply gbind_ext. intros a. apply IH.
Qed.

(** An exception raised in a round of the loop ends the stream: the events
    yielded so far are all the consumer gets, the end event of the root
    included. *)
Lemma raise_ends_stream : forall before log rest evs0 r0 evs1 e,
  patch_loop RunLog_add set_iter VNone false before = (evs0, inr r0) ->
  patch_step RunLog_add set_iter (fst r0) (snd r0) log = (evs1, inl e) ->
  as_event_stream RunLog_add set_iter (before ++ log :: rest)
    = (evs0 ++ evs1, inl e).
Proof.
  intros before log rest evs0 r0 evs1 e H0 H1.
  unfold as_event_stream. rewrite patch_loop_app, H0. simpl.
  now rewrite H1.
Qed.

End TranslatorFacts.

(* ===================================================================== *)
(** ** Runs of the translator on the sample patch library *)
(* ===================================================================== *)

Lemma first_seen_In : forall l p, In p (first_seen l) <-> In p l.
Proof.
  induction l as [|x l IH]; intros p; simpl; [tauto|].
  rewrite filter_In, IH. split.
  - intros [H|[H _]]; auto.
  - intros [H|H]; auto.
    destruct (String.eqb x p) eqn:E.
    + apply String.eqb_eq in E; auto.
    + right; split; auto.
Qed.

Lemma first_seen_NoDup : forall l, NoDup (first_seen l).
Proof.
  induction l as [|x l IH]; simpl; constructor.
  - rewrite filter_In. intros [_ H].
    now rewrite String.eqb_refl in H.
  - now apply NoDup_filter.
Qed.

Lemma event_kind_from_merged_state_witness :
  let run_log := run_state "r1" "seq" "chain" [] VNone
                   [("a", log_entry "s1" "gen" "llm" [] VNone (VDict []) VNone)] in
  let log := [mk_op "add" "/logs/a/streamed_output/-" (VStr "tok")] in
  map fst (filter (fun e => negb (is_root (fst e)))
             (fst (patch_step apply_patch first_seen run_log true log)))
  = [SubRun "a"].
Proof.
  intros run_log log.
  destruct (patch_step apply_patch first_seen run_log true log)
    as [evs r] eqn:E.
  destruct (event_kind_from_merged_state apply_patch first_seen
              run_log true log
              (run_state "r1" "seq" "chain" [] VNone
                 [("a", log_entry "s1" "gen" "llm" [VStr "tok"] VNone
                          (VDict []) VNone)])
              evs r eq_refl
              (first_seen_NoDup _) (first_seen_In _) E) as [_ H].
  vm_compute in E. inversion E; subst.
  exact (H _ eq_refl).
Defined.

Lemma root_bracketing_witness :
  sample_patches <> [] /\
  exists before end_event state yielded final_output,
    patch_loop apply_patch first_seen VNone false sample_patches
      = (before, inr (state, yielded)) /\
    fst (as_event_stream apply_patch first_seen sample_patches)
      = before ++ [(Root, end_event)] /\
    root_started before /\
    kind (event end_event) = End /\
    tags end_event = VList [] /\ metadata end_event = VDict [] /\
    getitem state "final_output" = inr final_output /\
    data end_event = VDict [("output", final_output)].
Proof.
  exact (proj1 (root_bracketing apply_patch first_seen sample_patches
                  (fst (as_event_stream apply_patch first_seen sample_patches))
                  (inr tt) eq_refl)).
Defined.

(** The sample run: start of the root, start, stream and end of the call,
    end of the root. *)
Lemma sample_run :
  as_event_stream apply_patch first_seen sample_patches
  = ([(Root, mk_StreamEvent (on_ (VStr "chain") Start) (VStr "seq") (VStr "r1")
               (VList []) (VDict []) (VDict []));
      (SubRun "a", sample_event "s1" "gen" "llm" Start
                     [("input", VDict [("q", VStr "hi")])]);
      (SubRun "a", sample_event "s1" "gen" "llm" Stream
                     [("chunk", VStr "tok")]);
      (SubRun "a", sample_event "s1" "gen" "llm" End
                     [("output", VStr "done");
                      ("input", VDict [("q", VStr "hi")])]);
      (Root, mk_StreamEvent (on_ (VStr "chain") End) (VStr "seq") (VStr "r1")
               (VList []) (VDict [])
               (VDict [("output", VDict [("output", VStr "done")])]))],
     inr tt).
Proof. reflexivity. Qed.

(** Two chunks buffered before a flush: the stream ends with the
    [AssertionError] of the check, after the events of the earlier rounds. *)
Lemma two_chunks_end_the_stream :
  as_event_stream apply_patch first_seen two_chunk_patches
  = ([(Root, mk_StreamEvent (on_ (VStr "chain") Start) (VStr "seq") (VStr "r1")
               (VList []) (VDict []) (VDict []));
      (SubRun "a", sample_event "s1" "gen" "llm" Start
                     [("input", VDict [("q", VStr "hi")])])],
     inl (AssertionError 2 (VStr "gen"))).
Proof. reflexivity. Qed.

(** A patch that touches the call after its end: the final output was
    cleared with the end event, and the loop body raises on reading it. *)
Lemma late_touch_ends_the_stream :
  as_event_stream apply_patch first_seen late_touch_patches
  = (fst (patch_loop apply_patch first_seen VNone false sample_patches),
     inl (KeyError "final_output")).
Proof. reflexivity. Qed.


(** C3, as the specification states it, fails.  A stream whose only patch
    sets a root state without [final_output] yields the start event of the
    root and then raises: there is no end event.  A stream whose only patch
    sets a root state without [id] yields no event at all. *)
Lemma final_end_event_not_unconditional :
  (exists start,
     as_event_stream apply_patch first_seen
       [[mk_op "replace" "" state_without_final_output]]
     = ([(Root, start)], inl (KeyError "final_output")) /\
     kind (event start) = Start) /\
  as_event_stream apply_patch first_seen
    [[mk_op "replace" "" state_without_id]]
  = ([], inl (KeyError "id")).
Proof. split; [eexists; split|]; reflexivity. Qed.

(* ===================================================================== *)
(** ** The bounded executor *)
(* ===================================================================== *)












(** A run under a limit of one: the two tasks pass the semaphore one after
    the other, and the results come in input order. *)
Lemma gated_run_completes :
  let c0 := mk_coro 0 (inr (VInt 1)) in
  let c1 := mk_coro 1 (inr (VInt 2)) in
  exists e0 e,
    gather_with_concurrency (Some 1%Z) [c0; c1] = inr e0 /\
    reachable e0 e /\
    forallb is_done (tasks e) = true /\
    results e = [inr (VInt 1); inr (VInt 2)].
Proof.
  intros c0 c1.
  exists (mk_executor (Some 1) [Waiting c0; Waiting c1]),
         (mk_executor (Some 1) [Done (outcome c0); Done (outcome c1)]).
  repeat split.
  apply (reach_step _ (mk_executor (Some 0) [Done (outcome c0); Running 0 c1]));
    [apply (reach_step _ (mk_executor (Some 0)
                            [Done (outcome c0); Running 1 c1]));
      [apply (reach_step _ (mk_executor (Some 1)
                              [Done (outcome c0); Waiting c1]));
        [apply (reach_step _ (mk_executor (Some 0)
                                [Running 0 c0; Waiting c1]));
          [apply (reach_step _ (mk_executor (Some 1)
                                  [Waiting c0; Waiting c1]));
            [apply reach_refl|] |] |] |] |].
  - exact (step_acquire 0 [Waiting c0; Waiting c1] 0 c0 eq_refl).
  - exact (step_release (Some 0) [Running 0 c0; Waiting c1] 0 c0 eq_refl).
  - exact (step_acquire 0 [Done (outcome c0); Waiting c1] 1 c1 eq_refl).
  - exact (step_await (Some 0) [Done (outcome c0); Running 1 c1] 1 0 c1
             eq_refl).
  - exact (step_release (Some 0) [Done (outcome c0); Running 0 c1] 1 c1
             eq_refl).
Qed.

(* ===================================================================== *)
(** ** The order of strings and of sort keys *)
(* ===================================================================== *)

Lemma ascii_compare_refl : forall a, Ascii.compare a a = Eq.
Proof. intros a. unfold Ascii.compare. apply N.compare_refl. Qed.

Lemma ascii_compare_lt_trans : forall a b c,
  Ascii.compare a b = Lt -> Ascii.compare b c = Lt -> Ascii.compare a c = Lt.
Proof.
  unfold Ascii.compare. intros a b c H1 H2.
  rewrite N.compare_lt_iff in *. lia.
Qed.

Lemma string_compare_refl : forall s, String.compare s s = Eq.
Proof.
  induction s as [|a s IH]; simpl; auto. now rewrite ascii_compare_refl.
Qed.

Lemma string_compare_lt_trans : forall a b c,
  String.compare a b = Lt -> String.compare b c = Lt ->
  String.compare a c = Lt.
Proof.
  induction a as [|x a IH]; intros [|y b] [|z c] H1 H2;
    simpl in *; try discriminate; auto.
  destruct (Ascii.compare x y) eqn:E1; try discriminate;
    destruct (Ascii.compare y z) eqn:E2; try discriminate.
  - apply Ascii.compare_eq_iff in E1, E2. subst.
    rewrite ascii_compare_refl. eauto.
  - apply Ascii.compare_eq_iff in E1. subst. now rewrite E2.
  - apply Ascii.compare_eq_iff in E2. subst. now rewrite E1.
  - now rewrite (ascii_compare_lt_trans _ _ _ E1 E2).
Qed.

Lemma string_compare_lt_gt : forall a b,
  String.compare a b = Lt <-> String.compare b a = Gt.
Proof.
  intros a b. rewrite (String.compare_antisym a b).
  destruct (String.compare b a); simpl; split; congruence.
Qed.

Lemma string_compare_lt_irrefl : forall a, String.compare a a <> Lt.
Proof. intros a. rewrite string_compare_refl. discriminate. Qed.

Lemma key_ltb_asym : forall a b, key_ltb a b = true -> key_ltb b a = false.
Proof.
  induction a as [|x a IH]; intros [|y b] H; simpl in *; try discriminate; auto.
  rewrite (String.compare_antisym y x).
  destruct (String.compare x y); simpl; try discriminate; auto.
Qed.

Lemma key_ltb_head : forall x a y b,
  String.compare x y = Lt -> key_ltb (x :: a) (y :: b) = true.
Proof. intros x a y b H. simpl. now rewrite H. Qed.

(* ===================================================================== *)
(** ** [get_unique_config_specs] *)
(* ===================================================================== *)

Section ConfigSpecFacts.

Variable Any : Type.
Variable any_eq : Any -> Any -> bool.

Lemma sorted_insert_perm : forall x l,
  Permutation (sorted_insert Any x l) (x :: l).
Proof.
  intros x l; induction l as [|y l IH]; cbn [sorted_insert]; auto.
  destruct (key_ltb (sort_key Any y) (sort_key Any x)); auto.
  apply perm_trans with (y :: x :: l);
    [apply perm_skip; exact IH | apply perm_swap].
Qed.

Lemma sorted_perm : forall l, Permutation (sorted Any l) l.
Proof.
  induction l as [|x l IH]; simpl; auto.
  apply perm_trans with (x :: sorted Any l);
    [apply sorted_insert_perm | apply perm_skip; exact IH].
Qed.

Lemma sorted_insert_sorted : forall x l,
  Sorted key_le l -> Sorted key_le (sorted_insert Any x l).
Proof.
  intros x l; induction l as [|y l IH]; intros Hs; cbn [sorted_insert].
  - repeat constructor.
  - destruct (key_ltb (sort_key Any y) (sort_key Any x)) eqn:E.
    + inversion Hs as [|? ? Hs' Hhd]; subst.
      constructor; auto.
      destruct l as [|z l]; cbn [sorted_insert].
      * constructor. unfold key_le. now apply key_ltb_asym.
      * destruct (key_ltb (sort_key Any z) (sort_key Any x));
          constructor.
        -- now inversion Hhd.
        -- unfold key_le. now apply key_ltb_asym.
    + constructor; auto.
Qed.

Lemma sorted_sorted : forall l, Sorted key_le (sorted Any l).
Proof.
  induction l as [|x l IH]; simpl; [constructor|].
  now apply sorted_insert_sorted.
Qed.

Lemma key_le_id_le : forall a b : ConfigurableFieldSpec.t Any,
  key_le a b -> id_le a b.
Proof.
  intros a b H Hgt. unfold key_le, sort_key in H.
  apply string_compare_lt_gt in Hgt.
  rewrite (key_ltb_head _ _ _ _ Hgt) in H. discriminate.
Qed.

Lemma sorted_by_id : forall l, Sorted id_le (sorted Any l).
Proof.
  intros l. pose proof (sorted_sorted l) as H.
  induction H as [|a l' Hs IH Hhd]; constructor; auto.
  destruct Hhd; constructor. now apply key_le_id_le.
Qed.

(** A list in the order of the keys is left as it is by the sort. *)
Lemma sorted_fixpoint : forall l, Sorted key_le l -> sorted Any l = l.
Proof.
  induction l as [|x l IH]; intros Hs; simpl; auto.
  inversion Hs as [|? ? Hs' Hhd]; subst.
  rewrite (IH Hs'). destruct Hhd as [|y l' Hxy]; cbn [sorted_insert]; auto.
  unfold key_le in Hxy. now rewrite Hxy.
Qed.

(** The groups, put end to end, are the list. *)
Lemma groupby_items : forall l,
  flat_map group_items (groupby Any l) = l.
Proof.
  induction l as [|x l IH]; simpl; auto.
  destruct (groupby Any l) as [|[k [first others]] groups] eqn:E; simpl.
  - simpl in IH. now subst.
  - destruct (String.eqb (ConfigurableFieldSpec.id x) k); simpl;
      unfold group_items in *; simpl in *; now rewrite IH.
Qed.

(** The key of a group is the [id] of each of its items. *)
Lemma groupby_keys : forall l,
  Forall (fun g => Forall (fun s => ConfigurableFieldSpec.id s = fst g)
                          (group_items g))
         (groupby Any l).
Proof.
  induction l as [|x l IH]; simpl; [constructor|].
  destruct (groupby Any l) as [|[k [first others]] groups] eqn:E.
  - repeat constructor.
  - inversion IH as [|? ? Hg Hgs]; subst.
    destruct (String.eqb (ConfigurableFieldSpec.id x) k) eqn:Ek.
    + apply String.eqb_eq in Ek. constructor; auto.
      unfold group_items in *; simpl in *. constructor; auto.
    + constructor; [repeat constructor|]. constructor; auto.
Qed.

Lemma groupby_head : forall x l,
  exists others groups,
    groupby Any (x :: l)
    = (ConfigurableFieldSpec.id x, (x, others)) :: groups.
Proof.
  intros x l. simpl.
  destruct (groupby Any l) as [|[k [first others]] groups]; eauto.
  destruct (String.eqb (ConfigurableFieldSpec.id x) k) eqn:Ek; eauto.
  apply String.eqb_eq in Ek. subst. eauto.
Qed.

(** On a list in the order of the [id]s, the keys of the groups go up
    strictly. *)
Lemma groupby_sorted_keys : forall l,
  Sorted id_le l ->
  Sorted (fun a b => String.compare a b = Lt) (map fst (groupby Any l)).
Proof.
  induction l as [|x l IH]; intros Hs; [constructor|].
  inversion Hs as [|? ? Hs' Hhd]; subst.
  specialize (IH Hs').
  destruct l as [|y l].
  - repeat constructor.
  - destruct (groupby_head y l) as (others & groups & Eg).
    change (groupby Any (x :: y :: l)) with
      (match groupby Any (y :: l) with
       | (k, (first, others)) :: groups =>
           if String.eqb (ConfigurableFieldSpec.id x) k
           then (k, (x, first :: others)) :: groups
           else (ConfigurableFieldSpec.id x, (x, []))
                :: (k, (first, others)) :: groups
       | [] => [(ConfigurableFieldSpec.id x, (x, []))]
       end).
    rewrite Eg in *. cbn [map fst] in IH.
    destruct (String.eqb (ConfigurableFieldSpec.id x)
                         (ConfigurableFieldSpec.id y)) eqn:Ek; cbn [map fst].
    + exact IH.
    + constructor; auto. constructor.
      inversion Hhd as [|? ? Hxy]; subst. unfold id_le in Hxy.
      destruct (String.compare (ConfigurableFieldSpec.id x)
                               (ConfigurableFieldSpec.id y)) eqn:Ec; auto.
      * apply String.compare_eq_iff in Ec. rewrite Ec in Ek.
        now rewrite String.eqb_refl in Ek.
      * congruence.
Qed.

Lemma unique_loop_acc : forall grouped unique,
  unique_loop Any any_eq grouped unique =
  match unique_loop Any any_eq grouped [] with
  | inl e => inl e
  | inr r => inr (unique ++ r)
  end.
Proof.
  induction grouped as [|[k [first others]] rest IH]; intros unique; simpl.
  - now rewrite app_nil_r.
  - destruct (Nat.eqb (List.length others) 0);
      [|destruct (forallb (fun o => spec_eq Any any_eq o first) others)];
      try reflexivity;
      rewrite IH, (IH [first]);
      destruct (unique_loop Any any_eq rest []); auto;
      now rewrite <- app_assoc.
Qed.

(** What the loop returns: the first item of each group when every group
    agrees, and [ValueError] otherwise. *)
Lemma unique_loop_result : forall grouped,
  unique_loop Any any_eq grouped [] =
  if forallb (group_agrees any_eq) grouped
  then inr (map group_first grouped)
  else inl ValueError.
Proof.
  induction grouped as [|[k [first others]] rest IH]; simpl; auto.
  unfold group_agrees at 1; simpl.
  assert (Hlen : Nat.eqb (List.length others) 0 = true ->
                 forallb (fun o => spec_eq Any any_eq o first) others = true)
    by (destruct others; simpl; [auto|discriminate]).
  destruct (forallb (fun o => spec_eq Any any_eq o first) others) eqn:Ef.
  - simpl.
    assert (Hgo : unique_loop Any any_eq rest [first] =
                  if forallb (group_agrees any_eq) rest
                  then inr (group_first (k, (first, others))
                            :: map group_first rest)
                  else inl ValueError).
    { rewrite unique_loop_acc, IH.
      destruct (forallb (group_agrees any_eq) rest); reflexivity. }
    destruct (Nat.eqb (List.length others) 0); exact Hgo.
  - destruct (Nat.eqb (List.length others) 0) eqn:En; [|reflexivity].
    specialize (Hlen eq_refl). discriminate.
Qed.

Lemma get_unique_config_specs_result : forall specs,
  get_unique_config_specs Any any_eq specs =
  if forallb (group_agrees any_eq) (groupby Any (sorted Any specs))
  then inr (map group_first (groupby Any (sorted Any specs)))
  else inl ValueError.
Proof. intros specs. apply unique_loop_result. Qed.

Lemma groupby_first_ids : forall l,
  map (fun g => ConfigurableFieldSpec.id (group_first g)) (groupby Any l)
  = map fst (groupby Any l).
Proof.
  intros l. pose proof (groupby_keys l) as H.
  induction H as [|g gs Hg Hgs IH]; simpl; auto.
  rewrite IH. f_equal. unfold group_items in Hg.
  now inversion Hg.
Qed.

Lemma id_lt_trans : forall a b c : ConfigurableFieldSpec.t Any,
  id_lt a b -> id_lt b c -> id_lt a c.
Proof. unfold id_lt. intros a b c. apply string_compare_lt_trans. Qed.

Lemma id_lt_irrefl : forall a : ConfigurableFieldSpec.t Any, ~ id_lt a a.
Proof. unfold id_lt. intros a. apply string_compare_lt_irrefl. Qed.

Lemma Sorted_map_inv : forall (A B : Type) (f : A -> B) (R : B -> B -> Prop)
  (l : list A),
  Sorted R (map f l) -> Sorted (fun a b => R (f a) (f b)) l.
Proof.
  induction l as [|x l IH]; intros H; [constructor|].
  simpl in H. inversion H as [|? ? Hs Hhd]; subst.
  constructor; auto.
  destruct l; simpl in *; constructor. now inversion Hhd.
Qed.

Lemma groupby_firsts_sorted : forall l,
  Sorted id_le l ->
  StronglySorted id_lt (map group_first (groupby Any l)).
Proof.
  intros l Hs. apply Sorted_StronglySorted.
  - intros a b c. apply id_lt_trans.
  - apply groupby_sorted_keys in Hs.
    rewrite <- groupby_first_ids in Hs.
    apply Sorted_map_inv in Hs.
    clear - Hs. induction (groupby Any l) as [|g gs IH]; [constructor|].
    inversion Hs as [|? ? Hs' Hhd]; subst. simpl. constructor; auto.
    destruct gs; simpl; constructor. now inversion Hhd.
Qed.

Lemma strict_sorted_NoDup : forall (A : Type) (R : A -> A -> Prop)
  (l : list A),
  (forall a, ~ R a a) -> StronglySorted R l -> NoDup l.
Proof.
  intros A R l Hirr H. induction H as [|a l Hs IH Hall]; constructor; auto.
  intros Hin. rewrite Forall_forall in Hall. exact (Hirr a (Hall a Hin)).
Qed.

Lemma strict_sorted_ext : forall (A : Type) (R : A -> A -> Prop),
  (forall a, ~ R a a) -> (forall a b c, R a b -> R b c -> R a c) ->
  forall l l' : list A,
  StronglySorted R l -> StronglySorted R l' ->
  (forall x, In x l <-> In x l') -> l = l'.
Proof.
  intros A R Hirr Htr. induction l as [|x l IH]; intros [|y l'] Hl Hl' Hin.
  - reflexivity.
  - exfalso. apply (proj2 (Hin y)). now left.
  - exfalso. apply (proj1 (Hin x)). now left.
  - inversion Hl as [|? ? Hs Hall]; subst.
    inversion Hl' as [|? ? Hs' Hall']; subst.
    rewrite Forall_forall in Hall, Hall'.
    assert (Exy : x = y).
    { destruct (proj1 (Hin x) (or_introl eq_refl)) as [E|Hx]; auto.
      destruct (proj2 (Hin y) (or_introl eq_refl)) as [E|Hy]; auto.
      exfalso. apply (Hirr x). apply Htr with y; auto. }
    subst y. f_equal. apply IH; auto.
    intros z; split; intros Hz.
    + destruct (proj1 (Hin z) (or_intror Hz)) as [E|Hz']; auto.
      subst z. exfalso. exact (Hirr x (Hall x Hz)).
    + destruct (proj2 (Hin z) (or_intror Hz)) as [E|Hz']; auto.
      subst z. exfalso. exact (Hirr x (Hall' x Hz)).
Qed.

Lemma in_group : forall l s,
  In s l -> exists g, In g (groupby Any l) /\ In s (group_items g).
Proof.
  intros l s H. rewrite <- (groupby_items l) in H.
  apply in_flat_map in H. exact H.
Qed.

Lemma group_in : forall l g s,
  In g (groupby Any l) -> In s (group_items g) ->
  In s l /\ ConfigurableFieldSpec.id s = fst g.
Proof.
  intros l g s Hg Hs. split.
  - rewrite <- (groupby_items l). apply in_flat_map. eauto.
  - pose proof (groupby_keys l) as H. rewrite Forall_forall in H.
    specialize (H g Hg). rewrite Forall_forall in H. auto.
Qed.

Lemma group_agrees_item : forall g s,
  group_agrees any_eq g = true -> In s (group_items g) ->
  s = group_first g \/ spec_eq Any any_eq s (group_first g) = true.
Proof.
  intros [k [first others]] s Ha [E|Hin]; simpl in *; auto.
  right. unfold group_agrees in Ha. simpl in Ha.
  rewrite forallb_forall in Ha. auto.
Qed.

Lemma group_disagrees : forall gs,
  forallb (group_agrees any_eq) gs = false ->
  exists g o, In g gs /\ In o (group_items g)
              /\ spec_eq Any any_eq o (group_first g) = false.
Proof.
  induction gs as [|g gs IH]; simpl; [discriminate|].
  intros H. apply andb_false_iff in H. destruct H as [H|H].
  - unfold group_agrees in H.
    destruct (forallb_forall
                (fun o => spec_eq Any any_eq o (fst (snd g))) (snd (snd g)))
      as [_ Hall].
    assert (Hex : exists o, In o (snd (snd g))
                    /\ spec_eq Any any_eq o (fst (snd g)) = false).
    { clear Hall. induction (snd (snd g)) as [|o os IHo]; simpl in H;
        [discriminate|].
      apply andb_false_iff in H. destruct H as [H|H].
      - exists o. split; [now left|exact H].
      - destruct (IHo H) as (o' & Ho' & E). exists o'. split; auto.
        now right. }
    destruct Hex as (o & Ho & E). exists g, o.
    split; [now left|]. split; [unfold group_items; now right | exact E].
  - destruct (IH H) as (g' & o & Hg & Ho & E). exists g', o.
    split; [now right | auto].
Qed.

Lemma get_unique_sorted : forall specs r,
  get_unique_config_specs Any any_eq specs = inr r ->
  StronglySorted id_lt r /\ NoDup (map ConfigurableFieldSpec.id r).
Proof.
  intros specs r H. rewrite get_unique_config_specs_result in H.
  destruct (forallb (group_agrees any_eq) (groupby Any (sorted Any specs)));
    [|discriminate].
  inversion H; subst; clear H.
  pose proof (groupby_firsts_sorted _ (sorted_by_id specs)) as Hs.
  split; auto.
  apply strict_sorted_NoDup
    with (R := fun a b => String.compare a b = Lt).
  - apply string_compare_lt_irrefl.
  - clear - Hs.
    induction Hs as [|a l Hs' IH Hall]; simpl; constructor; auto.
    rewrite Forall_forall in *. intros i Hi. apply in_map_iff in Hi.
    destruct Hi as (b & E & Hb). subst i. exact (Hall b Hb).
Qed.

Lemma get_unique_represents : forall specs r,
  get_unique_config_specs Any any_eq specs = inr r ->
  (forall u, In u r -> In u specs) /\
  (forall s, In s specs ->
     exists u, In u r
       /\ ConfigurableFieldSpec.id u = ConfigurableFieldSpec.id s
       /\ (s = u \/ spec_eq Any any_eq s u = true)).
Proof.
  intros specs r H. rewrite get_unique_config_specs_result in H.
  destruct (forallb (group_agrees any_eq) (groupby Any (sorted Any specs)))
    eqn:Ha; [|discriminate].
  inversion H; subst; clear H. rewrite forallb_forall in Ha. split.
  - intros u Hu. apply in_map_iff in Hu. destruct Hu as (g & E & Hg).
    subst u.
    destruct (group_in (sorted Any specs) g (group_first g) Hg) as [Hin _].
    { unfold group_items, group_first. now left. }
    apply Permutation_in with (sorted Any specs); auto.
    apply sorted_perm.
  - intros s Hs.
    assert (Hs' : In s (sorted Any specs)).
    { apply Permutation_in with specs; auto.
      apply Permutation_sym, sorted_perm. }
    destruct (in_group _ _ Hs') as (g & Hg & Hsg).
    exists (group_first g). split; [|split].
    + apply in_map_iff. eauto.
    + destruct (group_in _ g s Hg Hsg) as [_ E1].
      destruct (group_in _ g (group_first g) Hg) as [_ E2].
      { unfold group_items, group_first. now left. }
      congruence.
    + apply group_agrees_item; auto.
Qed.

Lemma get_unique_conflict : forall specs e,
  get_unique_config_specs Any any_eq specs = inl e ->
  e = ValueError /\
  exists a b, In a specs /\ In b specs
    /\ ConfigurableFieldSpec.id a = ConfigurableFieldSpec.id b
    /\ spec_eq Any any_eq a b = false.
Proof.
  intros specs e H. rewrite get_unique_config_specs_result in H.
  destruct (forallb (group_agrees any_eq) (groupby Any (sorted Any specs)))
    eqn:Ha; [discriminate|].
  inversion H; subst; clear H. split; auto.
  destruct (group_disagrees _ Ha) as (g & o & Hg & Ho & E).
  destruct (group_in _ g o Hg Ho) as [Hin1 E1].
  destruct (group_in _ g (group_first g) Hg) as [Hin2 E2].
  { unfold group_items, group_first. now left. }
  exists o, (group_first g). repeat split; auto.
  - apply Permutation_in with (sorted Any specs); auto. apply sorted_perm.
  - apply Permutation_in with (sorted Any specs); auto. apply sorted_perm.
  - congruence.
Qed.

Lemma id_lt_key_le : forall a b : ConfigurableFieldSpec.t Any,
  id_lt a b -> key_le a b.
Proof.
  intros a b H. unfold id_lt in H. unfold key_le, sort_key.
  apply string_compare_lt_gt in H. cbn [key_ltb]. now rewrite H.
Qed.

Lemma strict_sorted_key_sorted : forall l : list (ConfigurableFieldSpec.t Any),
  StronglySorted id_lt l -> Sorted key_le l.
Proof.
  intros l H. apply StronglySorted_Sorted in H.
  induction H as [|a l Hs IH Hhd]; constructor; auto.
  destruct Hhd; constructor. now apply id_lt_key_le.
Qed.

Lemma groupby_strict : forall l,
  StronglySorted id_lt l ->
  groupby Any l = map (fun s => (ConfigurableFieldSpec.id s, (s, []))) l.
Proof.
  induction l as [|x l IH]; intros H; [reflexivity|].
  inversion H as [|? ? Hs Hall]; subst.
  cbn [groupby map]. rewrite (IH Hs).
  destruct l as [|y l]; [reflexivity|]. cbn [map].
  destruct (String.eqb (ConfigurableFieldSpec.id x)
                       (ConfigurableFieldSpec.id y)) eqn:E; auto.
  apply String.eqb_eq in E. inversion Hall as [|? ? Hxy _]; subst.
  unfold id_lt in Hxy. rewrite E, string_compare_refl in Hxy. discriminate.
Qed.

(** X1: when [get_unique_config_specs] returns, the ids of the result go up
    strictly in the order of strings: no id occurs twice, whatever
    the order and the repetitions of the input. *)
Theorem unique_specs_ids_increase : forall specs r,
  get_unique_config_specs Any any_eq specs = inr r ->
  StronglySorted id_lt r /\ NoDup (map ConfigurableFieldSpec.id r).
Proof. exact get_unique_sorted. Qed.

(** X2: when [get_unique_config_specs] returns, every spec of the result is
    one of the input, and every spec of the input is represented: the
    result holds a spec with its id that is that spec or compares equal to
    it. *)
Theorem unique_specs_represent : forall specs r,
  get_unique_config_specs Any any_eq specs = inr r ->
  (forall u, In u r -> In u specs) /\
  (forall s, In s specs ->
     exists u, In u r
       /\ ConfigurableFieldSpec.id u = ConfigurableFieldSpec.id s
       /\ (s = u \/ spec_eq Any any_eq s u = true)).
Proof. exact get_unique_represents. Qed.

(** X3: the only exception [get_unique_config_specs] raises is
    [ValueError], and only when the input holds two specs with the same id
    that do not compare equal. *)
Theorem unique_specs_raise_on_conflict : forall specs e,
  get_unique_config_specs Any any_eq specs = inl e ->
  e = ValueError /\
  exists a b, In a specs /\ In b specs
    /\ ConfigurableFieldSpec.id a = ConfigurableFieldSpec.id b
    /\ spec_eq Any any_eq a b = false.
Proof. exact get_unique_conflict. Qed.

(** X4: [get_unique_config_specs] is idempotent: applied to a list it
    returned, it returns that list again. *)
Theorem unique_specs_idempotent : forall specs r,
  get_unique_config_specs Any any_eq specs = inr r ->
  get_unique_config_specs Any any_eq r = inr r.
Proof.
  intros specs r H. apply get_unique_sorted in H.
  destruct H as [Hs _].
  rewrite get_unique_config_specs_result.
  rewrite (sorted_fixpoint r (strict_sorted_key_sorted r Hs)).
  rewrite (groupby_strict r Hs).
  clear. induction r as [|x r IH]; [reflexivity|].
  cbn [map forallb]. unfold group_agrees at 1. cbn [snd fst forallb andb].
  destruct (forallb (group_agrees any_eq)
              (map (fun s => (ConfigurableFieldSpec.id s, (s, []))) r));
    [|discriminate].
  inversion IH as [E]. rewrite E. unfold group_first at 1. cbn [fst snd].
  rewrite E. reflexivity.
Qed.

Section ReflectedEquality.

Hypothesis any_eq_spec : forall x y : Any, any_eq x y = true <-> x = y.

Lemma option_eqb_spec : forall (A : Type) (eqb : A -> A -> bool),
  (forall x y, eqb x y = true <-> x = y) ->
  forall a b : option A, option_eqb eqb a b = true <-> a = b.
Proof.
  intros A eqb H [a|] [b|]; simpl; split; intros E;
    try discriminate; auto.
  - f_equal. now apply H.
  - inversion E. now apply H.
Qed.

Lemma list_eqb_spec : forall (A : Type) (eqb : A -> A -> bool),
  (forall x y, eqb x y = true <-> x = y) ->
  forall a b : list A, list_eqb eqb a b = true <-> a = b.
Proof.
  intros A eqb H. induction a as [|x a IH]; intros [|y b]; simpl; split;
    intros E; try discriminate; auto.
  - apply andb_true_iff in E. destruct E as [E1 E2].
    f_equal; [now apply H | now apply IH].
  - inversion E; subst. apply andb_true_iff. split;
      [now apply H | now apply IH].
Qed.

Lemma spec_eq_spec : forall a b : ConfigurableFieldSpec.t Any,
  spec_eq Any any_eq a b = true <-> a = b.
Proof.
  intros [i1 a1 n1 d1 f1 s1 p1] [i2 a2 n2 d2 f2 s2 p2].
  unfold spec_eq; simpl. rewrite !andb_true_iff.
  rewrite String.eqb_eq, !any_eq_spec, Bool.eqb_true_iff.
  rewrite !(option_eqb_spec _ _ String.eqb_eq).
  rewrite (option_eqb_spec _ _ (list_eqb_spec _ _ String.eqb_eq)).
  split.
  - intros [[[[[[E1 E2] E3] E4] E5] E6] E7]. congruence.
  - intros E. inversion E. repeat split.
Qed.

Lemma get_unique_succeeds_iff : forall specs,
  (exists r, get_unique_config_specs Any any_eq specs = inr r) <->
  (forall a b, In a specs -> In b specs ->
     ConfigurableFieldSpec.id a = ConfigurableFieldSpec.id b -> a = b).
Proof.
  intros specs. split.
  - intros [r H] a b Ha Hb E.
    destruct (get_unique_sorted _ _ H) as [Hs _].
    destruct (get_unique_represents _ _ H) as [_ Hrep].
    destruct (Hrep a Ha) as (u & Hu & Eu & Hau).
    destruct (Hrep b Hb) as (v & Hv & Ev & Hbv).
    assert (Ea : a = u) by (destruct Hau; auto; now apply spec_eq_spec).
    assert (Eb : b = v) by (destruct Hbv; auto; now apply spec_eq_spec).
    subst u v. clear - Hs Hu Hv E.
    induction Hs as [|x l Hs' IH Hall]; [contradiction|].
    rewrite Forall_forall in Hall.
    destruct Hu as [Hu|Hu], Hv as [Hv|Hv]; subst; auto.
    + specialize (Hall b Hv). unfold id_lt in Hall.
      rewrite E, string_compare_refl in Hall. discriminate.
    + specialize (Hall a Hu). unfold id_lt in Hall.
      rewrite E, string_compare_refl in Hall. discriminate.
  - intros Hfree.
    destruct (get_unique_config_specs Any any_eq specs) as [e|r] eqn:H;
      [|eauto].
    exfalso. destruct (get_unique_conflict _ _ H)
      as (_ & a & b & Ha & Hb & E & Hne).
    rewrite (Hfree a b Ha Hb E) in Hne.
    assert (Ht : spec_eq Any any_eq b b = true) by now apply spec_eq_spec.
    congruence.
Qed.

(** X5: with an equality of the values that decides equality,
    [get_unique_config_specs] returns exactly when the specs of the input
    that share an id are equal, and raises [ValueError] exactly when two
    specs of the input share an id and differ. *)
Theorem unique_specs_succeed_iff : forall specs,
  match get_unique_config_specs Any any_eq specs with
  | inr _ =>
      forall a b, In a specs -> In b specs ->
        ConfigurableFieldSpec.id a = ConfigurableFieldSpec.id b -> a = b
  | inl e =>
      e = ValueError /\
      exists a b, In a specs /\ In b specs
        /\ ConfigurableFieldSpec.id a = ConfigurableFieldSpec.id b
        /\ a <> b
  end.
Proof.
  intros specs.
  destruct (get_unique_config_specs Any any_eq specs) as [e|r] eqn:H.
  - destruct (get_unique_conflict _ _ H) as (E & a & b & Ha & Hb & Ei & Hne).
    split; auto. exists a, b. repeat split; auto.
    intros Eab. apply spec_eq_spec in Eab. congruence.
  - apply get_unique_succeeds_iff. eauto.
Qed.

(** X6: with an equality of the values that decides equality, the outcome
    of [get_unique_config_specs] depends only on which specs the input
    holds, not on their order or on how often each occurs. *)
Theorem unique_specs_order_free : forall specs specs',
  (forall s, In s specs <-> In s specs') ->
  get_unique_config_specs Any any_eq specs
  = get_unique_config_specs Any any_eq specs'.
Proof.
  assert (Hsub : forall specs specs' r r',
    (forall s, In s specs <-> In s specs') ->
    get_unique_config_specs Any any_eq specs = inr r ->
    get_unique_config_specs Any any_eq specs' = inr r' ->
    forall u, In u r -> In u r').
  { intros specs specs' r r' Hin H H' u Hu.
    destruct (get_unique_represents _ _ H) as [Hsub _].
    destruct (get_unique_represents _ _ H') as [_ Hrep].
    destruct (Hrep u (proj1 (Hin u) (Hsub u Hu))) as (v & Hv & _ & Huv).
    assert (E : u = v) by (destruct Huv; auto; now apply spec_eq_spec).
    now subst v. }
  intros specs specs' Hin.
  destruct (get_unique_config_specs Any any_eq specs) as [e|r] eqn:H;
    destruct (get_unique_config_specs Any any_eq specs') as [e'|r'] eqn:H'.
  - destruct (get_unique_conflict _ _ H) as [E _].
    destruct (get_unique_conflict _ _ H') as [E' _].
    congruence.
  - exfalso.
    assert (Hex : exists r, get_unique_config_specs Any any_eq specs = inr r).
    { apply get_unique_succeeds_iff. intros a b Ha Hb.
      apply (proj1 (get_unique_succeeds_iff specs') (ex_intro _ r' H'));
        now apply Hin. }
    destruct Hex as [r Hr]. congruence.
  - exfalso.
    assert (Hex : exists r, get_unique_config_specs Any any_eq specs' = inr r).
    { apply get_unique_succeeds_iff. intros a b Ha Hb.
      apply (proj1 (get_unique_succeeds_iff specs) (ex_intro _ r H));
        now apply Hin. }
    destruct Hex as [r' Hr]. congruence.
  - f_equal. apply strict_sorted_ext with (R := id_lt).
    + apply id_lt_irrefl.
    + apply id_lt_trans.
    + exact (proj1 (get_unique_sorted _ _ H)).
    + exact (proj1 (get_unique_sorted _ _ H')).
    + intros u; split.
      * exact (Hsub specs specs' r r' Hin H H' u).
      * exact (Hsub specs' specs r' r (fun s => iff_sym (Hin s)) H' H u).
Qed.

End ReflectedEquality.

End ConfigSpecFacts.

Lemma unique_specs_ids_increase_witness :
  get_unique_config_specs nat Nat.eqb sample_specs = inr unique_sample_specs
  /\ StronglySorted id_lt unique_sample_specs
  /\ NoDup (map ConfigurableFieldSpec.id unique_sample_specs).
Proof.
  split; [reflexivity|].
  apply (unique_specs_ids_increase nat Nat.eqb sample_specs). reflexivity.
Defined.

Lemma unique_specs_represent_witness :
  (forall u, In u unique_sample_specs -> In u sample_specs) /\
  (forall s, In s sample_specs ->
     exists u, In u unique_sample_specs
       /\ ConfigurableFieldSpec.id u = ConfigurableFieldSpec.id s
       /\ (s = u \/ spec_eq nat Nat.eqb s u = true)).
Proof.
  apply (unique_specs_represent nat Nat.eqb sample_specs). reflexivity.
Defined.

Lemma unique_specs_raise_on_conflict_witness :
  ValueError = ValueError /\
  exists a b, In a conflicting_specs /\ In b conflicting_specs
    /\ ConfigurableFieldSpec.id a = ConfigurableFieldSpec.id b
    /\ spec_eq nat Nat.eqb a b = false.
Proof.
  apply (unique_specs_raise_on_conflict nat Nat.eqb conflicting_specs).
  reflexivity.
Defined.

Lemma unique_specs_idempotent_witness :
  get_unique_config_specs nat Nat.eqb unique_sample_specs
  = inr unique_sample_specs.
Proof.
  apply (unique_specs_idempotent nat Nat.eqb sample_specs). reflexivity.
Defined.

Lemma unique_specs_succeed_iff_witness :
  match get_unique_config_specs nat Nat.eqb conflicting_specs with
  | inr _ =>
      forall a b, In a conflicting_specs -> In b conflicting_specs ->
        ConfigurableFieldSpec.id a = ConfigurableFieldSpec.id b -> a = b
  | inl e =>
      e = ValueError /\
      exists a b, In a conflicting_specs /\ In b conflicting_specs
        /\ ConfigurableFieldSpec.id a = ConfigurableFieldSpec.id b
        /\ a <> b
  end.
Proof.
  apply (unique_specs_succeed_iff nat Nat.eqb Nat.eqb_eq conflicting_specs).
Defined.

Lemma unique_specs_order_free_witness :
  get_unique_config_specs nat Nat.eqb sample_specs
  = get_unique_config_specs nat Nat.eqb unique_sample_specs.
Proof.
  apply (unique_specs_order_free nat Nat.eqb Nat.eqb_eq).
  intros s. unfold sample_specs, unique_sample_specs. simpl. tauto.
Defined.

(* ===================================================================== *)
(** ** [indent_lines_after_first] *)
(* ===================================================================== *)

Lemma splitlines_nil : forall s, splitlines s = [] <-> s = EmptyString.
Proof.
  intros s; split; [|intros ->; reflexivity].
  destruct s as [|c s]; auto. cbn [splitlines].
  destruct (Ascii.eqb c "013").
  - destruct s as [|c' s]; [discriminate|].
    destruct c' as [[] [] [] [] [] [] [] []]; discriminate.
  - destruct (is_linebreak c); [discriminate|].
    destruct (splitlines s); discriminate.
Qed.

Lemma splitlines_no_break : forall s,
  Forall (fun line => no_break line = true) (splitlines s).
Proof.
  assert (Hcons : forall c s,
    Forall (fun line => no_break line = true) (splitlines s) ->
    Forall (fun line => no_break line = true)
           (if is_linebreak c then EmptyString :: splitlines s
            else match splitlines s with
                 | line :: lines => String c line :: lines
                 | [] => [String c EmptyString]
                 end)).
  { intros c s IH. destruct (is_linebreak c) eqn:Ec.
    - constructor; auto.
    - destruct (splitlines s) as [|line lines].
      + repeat constructor. cbn [no_break]. now rewrite Ec.
      + inversion IH; subst. constructor; auto.
        cbn [no_break]. rewrite Ec. auto. }
  intros s. remember (String.length s) as n eqn:En.
  revert s En. induction n as [n IHn] using lt_wf_ind. intros s En.
  destruct s as [|c s]; [constructor|]. cbn [splitlines].
  destruct (Ascii.eqb c "013") eqn:E13.
  - destruct s as [|c' s].
    + repeat constructor.
    + assert (H1 : Forall (fun line => no_break line = true)
                          (splitlines (String c' s))).
      { apply (IHn (String.length (String c' s))); subst; simpl; auto. }
      assert (H2 : Forall (fun line => no_break line = true) (splitlines s)).
      { apply (IHn (String.length s)); subst; simpl; auto. }
      destruct c' as [[] [] [] [] [] [] [] []];
        constructor; auto.
  - apply Hcons. apply (IHn (String.length s)); subst; simpl; auto.
Qed.

Lemma no_break_not_cr : forall c,
  is_linebreak c = false -> Ascii.eqb c "013" = false.
Proof.
  intros c H. destruct (Ascii.eqb c "013") eqn:E; auto.
  apply Ascii.eqb_eq in E. subst. discriminate.
Qed.

(** A line is split off at the line feed that follows it. *)
Lemma splitlines_line_lf : forall line rest,
  no_break line = true ->
  splitlines (line ++ LF ++ rest)%string = line :: splitlines rest.
Proof.
  induction line as [|c line IH]; intros rest H.
  - reflexivity.
  - cbn [no_break] in H. apply andb_true_iff in H. destruct H as [Hc Hl].
    apply negb_true_iff in Hc.
    change (String c line ++ LF ++ rest)%string
      with (String c (line ++ LF ++ rest))%string.
    cbn [splitlines]. rewrite (no_break_not_cr c Hc), Hc.
    now rewrite (IH rest Hl).
Qed.

Lemma splitlines_line : forall line,
  no_break line = true -> line <> EmptyString -> splitlines line = [line].
Proof.
  induction line as [|c line IH]; intros H Hne; [congruence|].
  cbn [no_break] in H. apply andb_true_iff in H. destruct H as [Hc Hl].
  apply negb_true_iff in Hc.
  cbn [splitlines]. rewrite (no_break_not_cr c Hc), Hc.
  destruct line as [|c' line]; [reflexivity|].
  rewrite IH; auto. discriminate.
Qed.

Lemma join_cons : forall sep l1 l2 ls,
  join sep (l1 :: l2 :: ls) = (l1 ++ sep ++ join sep (l2 :: ls))%string.
Proof. reflexivity. Qed.

(** Lines joined by line feeds are split into the same lines again when
    the last of them is not empty. *)
Lemma splitlines_join : forall lines,
  Forall (fun line => no_break line = true) lines ->
  last lines EmptyString <> EmptyString ->
  splitlines (join LF lines) = lines.
Proof.
  induction lines as [|l1 lines IH]; intros Hall Hlast.
  - reflexivity.
  - inversion Hall as [|? ? H1 Hrest]; subst.
    destruct lines as [|l2 lines].
    + apply splitlines_line; auto.
    + rewrite join_cons, splitlines_line_lf; auto.
      f_equal. apply IH; auto.
Qed.

Lemma no_break_app : forall a b,
  no_break (a ++ b)%string = no_break a && no_break b.
Proof.
  induction a as [|c a IH]; intros b; simpl; auto.
  now rewrite IH, andb_assoc.
Qed.

Lemma no_break_spaces : forall n, no_break (str_mul " " n) = true.
Proof. induction n as [|n IH]; simpl; auto. Qed.

Lemma string_app_assoc : forall a b c : string,
  ((a ++ b) ++ c)%string = (a ++ (b ++ c))%string.
Proof. induction a as [|x a IH]; intros b c; simpl; [|rewrite IH]; auto. Qed.

Lemma str_mul_add : forall s n m,
  str_mul s (n + m) = (str_mul s n ++ str_mul s m)%string.
Proof.
  intros s n m. induction n as [|n IH]; simpl; auto.
  rewrite IH. symmetry. apply string_app_assoc.
Qed.

Lemma string_app_nil : forall a b : string,
  (a ++ b)%string = EmptyString -> a = EmptyString /\ b = EmptyString.
Proof. intros [|c a] b H; simpl in H; [auto|discriminate]. Qed.

Lemma indented_no_break : forall n lines,
  Forall (fun line => no_break line = true) lines ->
  Forall (fun line => no_break line = true)
         (map (fun line => (str_mul " " n ++ line)%string) lines).
Proof.
  intros n lines H. induction H; simpl; constructor; auto.
  rewrite no_break_app, no_break_spaces. auto.
Qed.

Lemma indented_last : forall n first rest,
  last (first :: rest) EmptyString <> EmptyString ->
  last (first :: map (fun line => (str_mul " " n ++ line)%string) rest)
       EmptyString <> EmptyString.
Proof.
  intros n first rest. revert first.
  induction rest as [|l rest IH]; intros first H; auto.
  cbn [map]. 
  change (last (first :: l :: rest) EmptyString)
    with (last (l :: rest) EmptyString) in H.
  change (last (first :: (str_mul " " n ++ l)%string
                :: map (fun line => (str_mul " " n ++ line)%string) rest)
               EmptyString)
    with (last ((str_mul " " n ++ l)%string
                :: map (fun line => (str_mul " " n ++ line)%string) rest)
               EmptyString).
  destruct rest as [|l' rest].
  - simpl in *. intros E. apply string_app_nil in E. tauto.
  - specialize (IH l H). cbn [map] in *.
    exact IH.
Qed.

Lemma string_length_app : forall a b : string,
  String.length (a ++ b)%string = String.length a + String.length b.
Proof. induction a as [|c a IH]; intros b; simpl; auto. Qed.

Lemma in_string_app : forall (c : ascii) (a b : string),
  In c (list_ascii_of_string (a ++ b)%string) ->
  In c (list_ascii_of_string a) \/ In c (list_ascii_of_string b).
Proof.
  induction a as [|x a IH]; intros b H; simpl in *; auto.
  destruct H as [H|H]; auto. apply IH in H. tauto.
Qed.

Lemma no_break_in : forall (c : ascii) (s : string),
  no_break s = true -> In c (list_ascii_of_string s) ->
  is_linebreak c = false.
Proof.
  induction s as [|x s IH]; intros H Hin; simpl in *; [contradiction|].
  apply andb_true_iff in H. destruct H as [Hx Hs].
  destruct Hin as [E|Hin]; auto. subst. now apply negb_true_iff.
Qed.

Lemma indent_lines_result : forall text prefix first rest,
  splitlines text = first :: rest ->
  indent_lines_after_first text prefix =
  inr (join LF (first :: map (fun line =>
                   (str_mul " " (String.length prefix) ++ line)%string)
                 rest)).
Proof.
  intros text prefix first rest H. unfold indent_lines_after_first.
  now rewrite H.
Qed.

(** X7: [indent_lines_after_first] raises [IndexError] on the empty text,
    whatever the prefix, and returns on every other text. *)
Theorem indent_raises_on_empty_text : forall text prefix,
  match indent_lines_after_first text prefix with
  | inl e => e = IndexError /\ text = EmptyString
  | inr _ => text <> EmptyString
  end.
Proof.
  intros text prefix. unfold indent_lines_after_first.
  destruct (splitlines text) as [|first rest] eqn:E.
  - split; auto. now apply splitlines_nil.
  - intros ->. discriminate.
Qed.

(** X8: for a text that is lines joined by line feeds, where no line holds
    a line boundary and the last line is not empty,
    [indent_lines_after_first] returns the first line as it is and every
    later line behind as many spaces as the prefix is long, joined the
    same way. *)
Theorem indent_joined_lines : forall prefix first rest,
  Forall (fun line => no_break line = true) (first :: rest) ->
  last (first :: rest) EmptyString <> EmptyString ->
  indent_lines_after_first (join LF (first :: rest)) prefix =
  inr (join LF (first :: map (fun line =>
                   (str_mul " " (String.length prefix) ++ line)%string)
                 rest)).
Proof.
  intros prefix first rest Hall Hlast.
  apply indent_lines_result. now apply splitlines_join.
Qed.

(** X9: the only line boundaries in a text [indent_lines_after_first]
    returns are line feeds: carriage returns and the other boundaries of
    the input are replaced. *)
Theorem indent_result_line_feeds : forall text prefix r,
  indent_lines_after_first text prefix = inr r ->
  forall c, In c (list_ascii_of_string r) -> is_linebreak c = true ->
  c = "010"%char.
Proof.
  intros text prefix r H c Hin Hc.
  pose proof (splitlines_no_break text) as Hall.
  destruct (splitlines text) as [|first rest] eqn:E.
  { apply splitlines_nil in E. subst text. discriminate. }
  rewrite (indent_lines_result text prefix first rest E) in H.
  assert (Hr : r = join LF
                 (first :: map (fun line =>
                    (str_mul " " (String.length prefix) ++ line)%string)
                  rest)) by congruence.
  clear H. subst r. unfold join in Hin.
  assert (Hjoin : forall lines,
    Forall (fun line => no_break line = true) lines ->
    In c (list_ascii_of_string (String.concat LF lines)) ->
    c = "010"%char).
  { induction lines as [|l1 lines IH]; intros Hl Hi; [contradiction|].
    inversion Hl as [|? ? H1 Hrest]; subst.
    destruct lines as [|l2 lines].
    - simpl in Hi. rewrite (no_break_in c l1 H1 Hi) in Hc. discriminate.
    - change (String.concat LF (l1 :: l2 :: lines))
        with (l1 ++ LF ++ String.concat LF (l2 :: lines))%string in Hi.
      apply in_string_app in Hi. destruct Hi as [Hi|Hi].
      + rewrite (no_break_in c l1 H1 Hi) in Hc. discriminate.
      + apply in_string_app in Hi. destruct Hi as [Hi|Hi]; auto.
        simpl in Hi. destruct Hi as [Ec|[]]. now subst. }
  apply (Hjoin (first :: map (fun line =>
                  (str_mul " " (String.length prefix) ++ line)%string)
                rest)); [|exact Hin].
  inversion Hall; subst. constructor; auto. now apply indented_no_break.
Qed.

(** X10: on a text whose last line is not empty, indenting by one prefix
    and then by another is indenting once by the two prefixes put
    together. *)
Theorem indent_twice : forall text p q,
  last (splitlines text) EmptyString <> EmptyString ->
  bind (indent_lines_after_first text p)
       (fun r => indent_lines_after_first r q)
  = indent_lines_after_first text (p ++ q)%string.
Proof.
  intros text p q Hlast.
  pose proof (splitlines_no_break text) as Hall.
  destruct (splitlines text) as [|first rest] eqn:E;
    [simpl in Hlast; congruence|].
  rewrite (indent_lines_result text p first rest E).
  rewrite (indent_lines_result text (p ++ q)%string first rest E).
  cbn [bind].
  rewrite (indent_lines_result _ q first
             (map (fun line => (str_mul " " (String.length p) ++ line)%string)
                  rest)).
  - f_equal. f_equal. f_equal. rewrite map_map. apply map_ext. intros line.
    rewrite string_length_app, Nat.add_comm, str_mul_add.
    symmetry. apply string_app_assoc.
  - apply splitlines_join.
    + inversion Hall; subst. constructor; auto.
      now apply indented_no_break.
    + now apply indented_last.
Qed.

Lemma indent_joined_lines_witness :
  indent_lines_after_first (join LF ["def f():"; "  return 1"]) ">>"
  = inr (join LF ["def f():"; "    return 1"]).
Proof.
  apply (indent_joined_lines ">>" "def f():" ["  return 1"]).
  - repeat constructor.
  - simpl. discriminate.
Defined.

Lemma indent_result_line_feeds_witness :
  indent_lines_after_first
    (String "a" (String "013" (String "010" (String "b"
       (String "013" (String "c" EmptyString))))))
    "xy"
  = inr (join LF ["a"; "  b"; "  c"])
  /\ In "010"%char (list_ascii_of_string (join LF ["a"; "  b"; "  c"]))
  /\ is_linebreak "010" = true
  /\ "010"%char = "010"%char.
Proof.
  split; [reflexivity|]. split; [simpl; auto|]. split; [reflexivity|].
  apply (indent_result_line_feeds
           (String "a" (String "013" (String "010" (String "b"
              (String "013" (String "c" EmptyString))))))
           "xy" (join LF ["a"; "  b"; "  c"]) eq_refl "010"%char).
  - simpl. auto.
  - reflexivity.
Defined.

Lemma indent_twice_witness :
  bind (indent_lines_after_first (join LF ["a"; "b"]) "x")
       (fun r => indent_lines_after_first r "yz")
  = indent_lines_after_first (join LF ["a"; "b"]) "xyz".
Proof.
  apply (indent_twice (join LF ["a"; "b"]) "x" "yz").
  simpl. discriminate.
Defined.

(* ===================================================================== *)
(** ** The executor: progress, termination and the permits *)
(* ===================================================================== *)







Lemma gated_start_gate : forall limit coros,
  gate_holds limit (mk_executor (Some limit) (map gated_coro coros)).
Proof.
  intros limit coros. unfold gate_holds, active; simpl.
  assert (H0 : List.length (filter is_running (map gated_coro coros)) = 0)
    by (clear; induction coros; simpl; auto).
  rewrite H0. lia.
Qed.


Lemma gather_start : forall n coros e0,
  gather_with_concurrency n coros = inr e0 ->
  match n with
  | None => e0 = mk_executor None (map (fun c => Running (ticks c) c) coros)
  | Some limit =>
      (0 <= limit)%Z /\
      e0 = mk_executor (Some (Z.to_nat limit)) (map gated_coro coros)
  end.
Proof.
  intros [limit|] coros e0 H; unfold gather_with_concurrency in H.
  - destruct (limit <? 0)%Z eqn:E; [discriminate|].
    apply Z.ltb_ge in E. unfold ret in H. split; [lia|congruence].
  - unfold ret in H. congruence.
Qed.


(** X12: under the limit zero no task ever passes the semaphore: the event
    loop stays in its first state, and with at least one coroutine the
    gather never completes. *)
Theorem gather_zero_limit_blocks : forall coros e0 e,
  gather_with_concurrency (Some 0%Z) coros = inr e0 ->
  reachable e0 e ->
  e = e0 /\ active e = 0 /\
  (coros <> [] -> forallb is_done (tasks e) = false).
Proof.
  intros coros e0 e H0 Hr. apply gather_start in H0.
  destruct H0 as [_ ->]. simpl Z.to_nat in *.
  assert (He : e = mk_executor (Some 0) (map gated_coro coros)).
  { induction Hr as [|e1 e2 Hr IH Hs]; auto. subst e1.
    exfalso.
    assert (Hw : forall i k c,
              nth_error (map gated_coro coros) i <> Some (Running k c)).
    { intros i k c Hi. apply nth_error_In in Hi. apply in_map_iff in Hi.
      destruct Hi as (c' & E & _). discriminate. }
    inversion Hs; subst; eapply Hw; eauto. }
  subst e. split; [reflexivity|]. split.
  - pose proof (gated_start_gate 0 coros) as Hg.
    unfold gate_holds in Hg. simpl in Hg. exact Hg.
  - intros Hne. destruct coros; [congruence|reflexivity].
Qed.




Lemma steps_reachable : forall n e0 e, steps n e0 e -> reachable e0 e.
Proof.
  intros n e0 e H. induction H; [constructor|econstructor; eauto].
Qed.




Lemma gather_zero_limit_blocks_witness :
  let e0 := mk_executor (Some 0) (map gated_coro sample_coros) in
  e0 = e0 /\ active e0 = 0 /\
  (sample_coros <> [] -> forallb is_done (tasks e0) = false).
Proof.
  intros e0.
  apply (gather_zero_limit_blocks sample_coros e0 e0).
  - reflexivity.
  - apply reach_refl.
Defined.



(* ===================================================================== *)
(** ** The accumulator: keys, exceptions and the fold *)
(* ===================================================================== *)

Lemma has_key_dict_set : forall k k' v d,
  has_key k' (dict_set k v d) = String.eqb k' k || has_key k' d.
Proof.
  intros k k' v d. unfold has_key.
  destruct (String.eqb k' k) eqn:E.
  - apply String.eqb_eq in E. subst. now rewrite lookup_dict_set_eq.
  - rewrite lookup_dict_set_neq; auto.
    intros ->. now rewrite String.eqb_refl in E.
Qed.

Lemma keys_dict_set : forall k v d,
  map fst (dict_set k v d)
  = if has_key k d then map fst d else map fst d ++ [k].
Proof.
  intros k v d. unfold has_key.
  induction d as [|[k' v'] d IH]; simpl; auto.
  destruct (String.eqb k k') eqn:E; simpl; auto.
  rewrite IH. destruct (lookup k d); reflexivity.
Qed.

Lemma dict_set_fresh : forall k v d,
  lookup k d = None -> dict_set k v d = d ++ [(k, v)].
Proof.
  intros k v d. induction d as [|[k' v'] d IH]; simpl; auto.
  destruct (String.eqb k k'); [discriminate|].
  intros H. now rewrite IH.
Qed.

Lemma lookup_app_fresh : forall k d d',
  lookup k d = None -> lookup k (d ++ d') = lookup k d'.
Proof.
  intros k d d'. induction d as [|[k' v'] d IH]; simpl; auto.
  destruct (String.eqb k k'); [discriminate|auto].
Qed.

Lemma filter_fresh_keys : forall (f g : string -> bool) (ks : list string),
  (forall k, In k ks -> f k = g k) -> filter f ks = filter g ks.
Proof.
  intros f g ks H. induction ks as [|k ks IH]; simpl; auto.
  rewrite (H k) by now left. rewrite IH; auto.
  intros k' Hk'. apply H. now right.
Qed.

Section AccumulatorKeys.

Variable plus : value -> value -> M value.

Lemma add_loop_keys : forall other chunk r,
  NoDup (map fst other) ->
  add_loop plus chunk other = inr r ->
  map fst r
  = map fst chunk
    ++ filter (fun k => negb (has_key k chunk)) (map fst other).
Proof.
  induction other as [|[key ov] rest IH]; intros chunk r Hnd H.
  - simpl in *. inversion H; subst. now rewrite app_nil_r.
  - simpl in Hnd. inversion Hnd as [|? ? Hnotin Hnd']; subst.
    assert (Hset : forall v r,
      add_loop plus (dict_set key v chunk) rest = inr r ->
      map fst r
      = map fst chunk
        ++ filter (fun k => negb (has_key k chunk)) (key :: map fst rest)).
    { intros v r' H'. rewrite (IH _ _ Hnd' H'), keys_dict_set.
      assert (Hf : filter (fun k => negb (has_key k (dict_set key v chunk)))
                          (map fst rest)
                   = filter (fun k => negb (has_key k chunk)) (map fst rest)).
      { apply filter_fresh_keys. intros k Hk. rewrite has_key_dict_set.
        destruct (String.eqb k key) eqn:E; auto.
        apply String.eqb_eq in E. subst. contradiction. }
      rewrite Hf. cbn [filter].
      destruct (has_key key chunk); simpl; auto.
      now rewrite <- app_assoc. }
    assert (Hkeep : forall r,
      has_key key chunk = true ->
      add_loop plus chunk rest = inr r ->
      map fst r
      = map fst chunk
        ++ filter (fun k => negb (has_key k chunk)) (key :: map fst rest)).
    { intros r' Hk H'. rewrite (IH _ _ Hnd' H'). cbn [filter].
      now rewrite Hk. }
    cbn [map fst]. cbn [add_loop] in H.
    destruct (lookup key chunk) as [cv|] eqn:Ec; [|eapply Hset; eauto].
    assert (Hk : has_key key chunk = true) by (unfold has_key; now rewrite Ec).
    destruct cv; try (eapply Hset; eauto; fail);
      (destruct (negb (is_none ov));
       [apply bind_inr in H; destruct H as (a & _ & H); eapply Hset; eauto
       |apply Hkeep; auto]).
Qed.

Lemma add_loop_disjoint : forall other chunk,
  NoDup (map fst other) ->
  (forall k, In k (map fst other) -> lookup k chunk = None) ->
  add_loop plus chunk other = inr (chunk ++ other).
Proof.
  induction other as [|[key ov] rest IH]; intros chunk Hnd Hdis.
  - simpl. now rewrite app_nil_r.
  - simpl in Hnd. inversion Hnd as [|? ? Hnotin Hnd']; subst.
    cbn [add_loop]. rewrite (Hdis key) by now left.
    rewrite dict_set_fresh by (apply Hdis; now left).
    rewrite IH; auto.
    + now rewrite <- app_assoc.
    + intros k Hk. rewrite lookup_app_fresh by (apply Hdis; now right).
      simpl. destruct (String.eqb k key) eqn:E; auto.
      apply String.eqb_eq in E. subst. contradiction.
Qed.



Lemma add_from_app : forall xs ys final,
  add_from plus final (xs ++ ys)
  = bind (add_from plus final xs) (fun f => add_from plus f ys).
Proof.
  induction xs as [|x xs IH]; intros ys final; simpl; auto.
  destruct (add_step plus final x) as [e|f]; simpl; auto.
Qed.

(** X16: the keys of the dictionary [AddableDict.__add__] returns are the
    keys of [self] in their order, followed by the keys only [other] has,
    in the order of [other]: no key is lost and none is moved. *)
Theorem AddableDict_add_keys : forall self other r,
  NoDup (map fst other) ->
  AddableDict_add plus self other = inr r ->
  map fst r
  = map fst self
    ++ filter (fun k => negb (has_key k self)) (map fst other).
Proof. intros self other r. apply add_loop_keys. Qed.

(** X17: when no key of [other] is a key of [self], [AddableDict.__add__]
    returns the entries of [self] followed by those of [other], without
    trying [+]; so the empty dictionary on the left gives [other]. *)
Theorem AddableDict_add_disjoint : forall self other,
  NoDup (map fst other) ->
  (forall k, In k (map fst other) -> lookup k self = None) ->
  AddableDict_add plus self other = inr (self ++ other)
  /\ AddableDict_radd plus other self = inr (self ++ other).
Proof.
  intros self other Hnd Hdis. split; now apply add_loop_disjoint.
Qed.


(** X19: the fold can be done in parts: the sum of a first part of the
    sequence, put in front of the rest, gives the sum of the whole, and an
    exception in the first part is the exception of the whole. *)
Theorem add_in_parts : forall xs ys,
  add plus (xs ++ ys)
  = match add plus xs with
    | inl e => inl e
    | inr f => add plus (f :: ys)
    end
  /\ aadd plus (xs ++ ys)
     = match aadd plus xs with
       | inl e => inl e
       | inr f => aadd plus (f :: ys)
       end.
Proof.
  intros xs ys.
  assert (H : add_from plus VNone (xs ++ ys)
              = match add_from plus VNone xs with
                | inl e => inl e
                | inr f => add_from plus VNone (f :: ys)
                end).
  { rewrite add_from_app.
    destruct (add_from plus VNone xs) as [e|f]; reflexivity. }
  split; exact H.
Qed.

End AccumulatorKeys.





Lemma string_app_nil_r : forall a : string, (a ++ EmptyString)%string = a.
Proof. induction a as [|c a IH]; simpl; [|rewrite IH]; auto. Qed.

Lemma concat_empty_cons : forall s l,
  String.concat EmptyString (s :: l)
  = (s ++ String.concat EmptyString l)%string.
Proof.
  intros s [|s' l]; simpl; auto. now rewrite string_app_nil_r.
Qed.

Lemma add_from_strings : forall l acc,
  add_from py_add (VStr acc) (map VStr l)
  = inr (VStr (acc ++ String.concat EmptyString l)).
Proof.
  induction l as [|s l IH]; intros acc.
  - simpl. now rewrite string_app_nil_r.
  - cbn [map add_from add_step is_none bind py_add ret].
    rewrite IH, concat_empty_cons. now rewrite string_app_assoc.
Qed.

Lemma add_from_lists : forall l acc,
  add_from py_add (VList acc) (map VList l)
  = inr (VList (acc ++ List.concat l)).
Proof.
  induction l as [|x l IH]; intros acc.
  - simpl. now rewrite app_nil_r.
  - cbn [map add_from add_step is_none bind py_add ret].
    rewrite IH. simpl. now rewrite app_assoc.
Qed.

(** X21: on chunks that are all strings the fold returns their
    concatenation, and on chunks that are all lists the list of all their
    items, in the order of the chunks. *)
Theorem add_concatenates : forall (s : string) (ss : list string)
  (x : list value) (ls : list (list value)),
  add py_add (map VStr (s :: ss))
  = inr (VStr (String.concat EmptyString (s :: ss)))
  /\ add py_add (map VList (x :: ls)) = inr (VList (List.concat (x :: ls))).
Proof.
  intros s ss x ls. split.
  - unfold add. cbn [map add_from add_step is_none bind ret].
    rewrite add_from_strings. now rewrite concat_empty_cons.
  - unfold add. cbn [map add_from add_step is_none bind ret].
    now rewrite add_from_lists.
Qed.

Lemma AddableDict_add_none_key_witness :
  (lookup "a" [("a", VNone); ("b", VInt 1)] = None
   \/ lookup "a" [("a", VNone); ("b", VInt 1)] = Some VNone ->
   forall y, lookup "a" [("a", VStr "x"); ("b", VNone)] = Some y ->
             lookup "a" [("a", VStr "x"); ("b", VInt 1)] = Some y) /\
  (lookup "a" [("a", VStr "x"); ("b", VNone)] = None
   \/ lookup "a" [("a", VStr "x"); ("b", VNone)] = Some VNone ->
   forall x, lookup "a" [("a", VNone); ("b", VInt 1)] = Some x ->
             lookup "a" [("a", VStr "x"); ("b", VInt 1)] = Some x).
Proof.
  apply (AddableDict_add_none_key py_add
           [("a", VNone); ("b", VInt 1)] [("a", VStr "x"); ("b", VNone)]
           [("a", VStr "x"); ("b", VInt 1)] "a").
  - repeat constructor; simpl; intuition discriminate.
  - reflexivity.
Defined.

Lemma AddableDict_add_keys_witness :
  map fst [("a", VInt 3); ("b", VStr "x"); ("c", VInt 5)]
  = map fst [("a", VInt 1); ("b", VStr "x")]
    ++ filter (fun k => negb (has_key k [("a", VInt 1); ("b", VStr "x")]))
              (map fst [("c", VInt 5); ("a", VInt 2)]).
Proof.
  apply (AddableDict_add_keys py_add
           [("a", VInt 1); ("b", VStr "x")] [("c", VInt 5); ("a", VInt 2)]).
  - repeat constructor; simpl; intuition discriminate.
  - reflexivity.
Defined.

Lemma AddableDict_add_disjoint_witness :
  AddableDict_add py_add [("a", VInt 1)] [("b", VInt 2)]
  = inr ([("a", VInt 1)] ++ [("b", VInt 2)])
  /\ AddableDict_radd py_add [("b", VInt 2)] [("a", VInt 1)]
     = inr ([("a", VInt 1)] ++ [("b", VInt 2)]).
Proof.
  apply (AddableDict_add_disjoint py_add [("a", VInt 1)] [("b", VInt 2)]).
  - repeat constructor; simpl; intuition discriminate.
  - intros k [<-|[]]. reflexivity.
Defined.


(* ===================================================================== *)
(** ** The translator: what a round touches and what it leaves *)
(* ===================================================================== *)

Lemma stream_block_inr : forall log d l,
  stream_block log = inr (d, l) ->
  setitem log "streamed_output" (VList []) = inr l.
Proof.
  intros log d l H. unfold stream_block in H.
  bind_inv H. bind_inv H.
  destruct (negb (Nat.eqb x0 1)).
  - bind_inv H. discriminate.
  - do 3 bind_inv H. inversion H; subst. assumption.
Qed.

Lemma sub_run_event_frame : forall log ev log',
  sub_run_event log = inr (ev, log') ->
  forall k, k <> "final_output" -> k <> "inputs" -> k <> "streamed_output" ->
  getitem log' k = getitem log k.
Proof.
  intros log ev log' H k Hf Hi Hs.
  apply sub_run_event_inv in H. destruct H as (d & Hb & _ & _).
  destruct (kind (event ev)).
  - apply start_block_inr in Hb. destruct Hb as [-> _]. reflexivity.
  - apply stream_block_inr in Hb.
    eapply setitem_getitem_neq; eauto.
  - apply end_block_inr in Hb.
    destruct Hb as (type & fo & inputs & _ & _ & _ & [(_ & _ & ->)|(_ & Hn)]).
    + destruct (truthy inputs);
        rewrite ?getitem_cleared_neq by auto; reflexivity.
    + assert (Ht : getitem (new_style_taken fo log) k = getitem log k).
      { unfold new_style_taken. destruct fo; auto.
        now rewrite getitem_cleared_neq by auto. }
      destruct (truthy inputs).
      * destruct Hn as (input & _ & _ & ->).
        now rewrite getitem_cleared_neq by auto.
      * destruct Hn as (_ & ->). exact Ht.
Qed.

(** X22: the body of the loop over the sub-runs changes an entry of the log
    only in its fields [final_output], [inputs] and [streamed_output]:
    [id], [name], [type], [tags], [metadata], [end_time] and every other
    field read the same after the event as before. *)
Theorem sub_run_event_keeps_fields : forall log ev log' k,
  sub_run_event log = inr (ev, log') ->
  k <> "final_output" -> k <> "inputs" -> k <> "streamed_output" ->
  getitem log' k = getitem log k.
Proof.
  intros log ev log' k H Hf Hi Hs. eapply sub_run_event_frame; eauto.
Qed.

Lemma for_path_frame : forall state path evs state',
  for_path state path = (evs, inr state') ->
  (forall k, k <> "logs" -> getitem state' k = getitem state k) /\
  (forall p, p <> path -> entry_of state' p = entry_of state p).
Proof.
  intros state path evs state' H.
  apply for_path_inv in H.
  destruct H as [(_ & e & He)|(d & l & log & ev & log' & -> & Hl & Hp & _ & _ & Hr)];
    [discriminate|].
  inversion Hr; subst; clear Hr. split.
  - intros k Hk. simpl. rewrite lookup_dict_set_neq; auto.
  - intros p Hne. unfold entry_of. simpl.
    rewrite lookup_dict_set_eq, Hl. simpl.
    rewrite lookup_dict_set_neq; auto.
Qed.

Lemma for_paths_frame : forall paths state evs state',
  for_paths state paths = (evs, inr state') ->
  (forall k, k <> "logs" -> getitem state' k = getitem state k) /\
  (forall p, ~ In p paths -> entry_of state' p = entry_of state p).
Proof.
  induction paths as [|path paths IH]; intros state evs state' H.
  - simpl in H. inversion H; subst. auto.
  - simpl in H. apply gbind_inv in H.
    destruct H as [(e & _ & He)|(evs1 & st & evs2 & H1 & H2 & _)];
      [discriminate|].
    apply for_path_frame in H1. destruct H1 as [Hk1 Hp1].
    apply IH in H2. destruct H2 as [Hk2 Hp2]. split.
    + intros k Hk. rewrite Hk2, Hk1; auto.
    + intros p Hp. rewrite Hp2, Hp1; auto.
      * intros ->. apply Hp. now left.
      * intros Hin. apply Hp. now right.
Qed.

Lemma root_stream_frame : forall state evs state',
  root_stream state = (evs, inr state') ->
  forall k, k <> "streamed_output" -> getitem state' k = getitem state k.
Proof.
  intros state evs state' H k Hk.
  apply root_stream_inv in H.
  destruct H as [(_ & e & He)|[(_ & Hr & _)|(ev & st & id & _ & Hr & _ & _ & Hf)]].
  - discriminate.
  - inversion Hr; subst. reflexivity.
  - inversion Hr; subst. auto.
Qed.

Section TranslatorFrame.

Variable RunLog_add : value -> RunLogPatch -> M value.
Variable set_iter : list string -> list string.

(** X23: a round of the loop over the patches that completes leaves the
    merged state as [RunLog.__add__] made it, but for the root's
    [streamed_output] and for the entries of the sub-runs the round
    walked: every other field of the root and every other entry of the
    log read the same. *)
Theorem patch_step_frame : forall run_log yielded log evs state' yielded',
  patch_step RunLog_add set_iter run_log yielded log
  = (evs, inr (state', yielded')) ->
  exists state,
    RunLog_add run_log log = inr state /\
    (forall k, k <> "logs" -> k <> "streamed_output" ->
       getitem state' k = getitem state k) /\
    (forall p, ~ In p (set_iter (touched log)) ->
       entry_of state' p = entry_of state p).
Proof.
  intros run_log yielded log evs state' yielded' H.
  apply patch_step_inv in H.
  destruct H as [(_ & e & _ & He)|(state & evs1 & r1 & Hadd & _ & H)];
    [discriminate|].
  exists state. split; auto.
  destruct H as [(_ & e & _ & He)|(y' & evs2 & r2 & _ & H2 & H)];
    [discriminate|].
  destruct H as [(_ & e & _ & He)|(st2 & evs3 & r3 & -> & H3 & _ & Hr)];
    [discriminate|].
  destruct r3 as [e|st3]; [discriminate|]. inversion Hr; subst; clear Hr.
  apply for_paths_frame in H2. destruct H2 as [Hk2 Hp2].
  pose proof (root_stream_frame _ _ _ H3) as Hk3. split.
  - intros k Hl Hs. rewrite Hk3, Hk2; auto.
  - intros p Hp. rewrite <- (Hp2 p Hp). unfold entry_of.
    rewrite (Hk3 "logs"); [reflexivity|discriminate].
Qed.

(** X24: the translator works on line: the events it yields for the
    patches it has seen are the first events of the stream whatever
    patches follow, and once a round has raised, the exception is the
    outcome of the stream and no later patch is looked at. *)
Theorem events_do_not_wait : forall before rest evs0 r0,
  patch_loop RunLog_add set_iter VNone false before = (evs0, r0) ->
  (exists evs',
     fst (as_event_stream RunLog_add set_iter (before ++ rest))
     = evs0 ++ evs') /\
  (forall e, r0 = inl e ->
     as_event_stream RunLog_add set_iter (before ++ rest) = (evs0, inl e)).
Proof.
  intros before rest evs0 r0 H. unfold as_event_stream.
  rewrite patch_loop_app, H. destruct r0 as [e|r]; simpl.
  - split; [exists []; now rewrite app_nil_r|].
    intros e' He. inversion He; subst. reflexivity.
  - split; [|discriminate].
    destruct (patch_loop RunLog_add set_iter (fst r) (snd r) rest)
      as [evs1 [e|r1]]; simpl.
    + exists evs1. reflexivity.
    + destruct (final_event (fst r1)) as [evs2 r2]. simpl.
      exists (evs1 ++ evs2). now rewrite app_assoc.
Qed.

End TranslatorFrame.

Lemma split_segment : forall seg rest,
  no_slash seg = true ->
  split "/" (seg ++ String "/" rest)%string = seg :: split "/" rest.
Proof.
  induction seg as [|c seg IH]; intros rest H.
  - reflexivity.
  - cbn [no_slash] in H. apply andb_true_iff in H. destruct H as [Hc Hs].
    apply negb_true_iff in Hc.
    change (String c seg ++ String "/" rest)%string
      with (String c (seg ++ String "/" rest))%string.
    cbn [split]. rewrite Hc, (IH rest Hs). reflexivity.
Qed.

Lemma split_last_segment : forall seg,
  no_slash seg = true -> split "/" seg = [seg].
Proof.
  induction seg as [|c seg IH]; intros H; [reflexivity|].
  cbn [no_slash] in H. apply andb_true_iff in H. destruct H as [Hc Hs].
  apply negb_true_iff in Hc. cbn [split]. rewrite Hc, (IH Hs). reflexivity.
Qed.

Lemma split_head : forall q,
  exists seg parts,
    split "/" q = seg :: parts /\ no_slash seg = true /\
    (q = seg \/ exists rest, q = (seg ++ String "/" rest)%string).
Proof.
  induction q as [|c q IH].
  - exists EmptyString, []. auto.
  - destruct IH as (seg & parts & Hs & Hn & Hq). cbn [split].
    destruct (Ascii.eqb c "/") eqn:Ec.
    + apply Ascii.eqb_eq in Ec. subst c.
      exists EmptyString, (split "/" q). repeat split; auto.
      right. exists q. reflexivity.
    + rewrite Hs. exists (String c seg), parts. repeat split.
      * cbn [no_slash]. now rewrite Ec, Hn.
      * destruct Hq as [->|(rest & ->)]; [now left|].
        right. exists rest. reflexivity.
Qed.

Lemma prefix_app : forall p s,
  String.prefix p s = true <-> exists q, s = (p ++ q)%string.
Proof.
  induction p as [|a p IH]; intros s; split.
  - intros _. exists s. reflexivity.
  - intros _. destruct s; reflexivity.
  - destruct s as [|b s]; simpl; [discriminate|].
    destruct (ascii_dec a b) as [->|Hne]; [|discriminate].
    intros H. apply IH in H. destruct H as [q ->]. exists q. reflexivity.
  - intros [q ->]. simpl.
    destruct (ascii_dec a a) as [_|Hne]; [|congruence].
    apply IH. eauto.
Qed.

Lemma startswith_logs : forall path,
  startswith path "/logs/" = true <->
  exists q, path = ("/logs/" ++ q)%string.
Proof. intros path. unfold startswith. apply prefix_app. Qed.

Lemma touched_logs_path : forall q,
  nth 2 (split "/" ("/logs/" ++ q)%string) EmptyString
  = hd EmptyString (split "/" q).
Proof.
  intros q.
  change ("/logs/" ++ q)%string
    with (EmptyString ++ String "/" ("logs" ++ String "/" q))%string.
  rewrite split_segment by reflexivity.
  rewrite split_segment by reflexivity.
  destruct (split_head q) as (seg & parts & -> & _). reflexivity.
Qed.

(** X25: the segments a patch touches are the names that follow [/logs/]
    in the paths of its operations, up to the next slash or the end of
    the path: each touched segment is such a name, without a slash, and
    each operation on [/logs/NAME] or below touches [NAME].  Operations on
    other paths touch nothing. *)
Theorem touched_segments : forall (log : RunLogPatch) (p : string),
  In p (touched log) <->
  exists o tail,
    In o log /\ no_slash p = true /\
    op_path o = ("/logs/" ++ p ++ tail)%string /\
    (tail = EmptyString \/ exists rest, tail = String "/" rest).
Proof.
  intros log p. unfold touched. rewrite in_map_iff. split.
  - intros (o & Hp & Hin). apply filter_In in Hin. destruct Hin as [Hin Hs].
    apply startswith_logs in Hs. destruct Hs as [q Hq].
    rewrite Hq, touched_logs_path in Hp.
    destruct (split_head q) as (seg & parts & Hsp & Hn & Hshape).
    rewrite Hsp in Hp. simpl in Hp. subst seg.
    destruct Hshape as [->|(rest & ->)].
    + exists o, EmptyString. repeat split; auto.
      rewrite Hq. now rewrite string_app_nil_r.
    + exists o, (String "/" rest). repeat split; eauto.
  - intros (o & tail & Hin & Hn & Hpath & Htail).
    exists o. split.
    + rewrite Hpath, touched_logs_path.
      destruct Htail as [->|(rest & ->)].
      * rewrite string_app_nil_r, split_last_segment; auto.
      * rewrite split_segment; auto.
    + apply filter_In. split; auto.
      apply startswith_logs. eauto.
Qed.

Lemma sub_run_event_keeps_fields_witness :
  let log := log_entry "s1" "gen" "llm" [] (VStr "done")
               (VDict [("q", VStr "hi")]) (VStr "t1") in
  match sub_run_event log with
  | inr (ev, log') => getitem log' "name" = getitem log "name"
  | inl _ => False
  end.
Proof.
  intros log. destruct (sub_run_event log) as [e|[ev log']] eqn:E.
  - vm_compute in E. discriminate.
  - apply (sub_run_event_keeps_fields log ev log' "name" E); discriminate.
Defined.

Lemma patch_step_frame_witness :
  let run_log := run_state "r1" "seq" "chain" [] VNone
                   [("a", log_entry "s1" "gen" "llm" [] VNone (VDict []) VNone);
                    ("b", log_entry "s2" "fmt" "chain" [] VNone (VDict [])
                            VNone)] in
  let log := [mk_op "add" "/logs/a/streamed_output/-" (VStr "tok")] in
  match snd (patch_step apply_patch first_seen run_log true log) with
  | inr (state', _) =>
      exists state,
        apply_patch run_log log = inr state /\
        (forall k, k <> "logs" -> k <> "streamed_output" ->
           getitem state' k = getitem state k) /\
        (forall p, ~ In p (first_seen (touched log)) ->
           entry_of state' p = entry_of state p)
  | inl _ => False
  end.
Proof.
  intros run_log log.
  destruct (patch_step apply_patch first_seen run_log true log)
    as [evs [e|[state' yielded']]] eqn:E.
  - vm_compute in E. discriminate.
  - exact (patch_step_frame apply_patch first_seen run_log true log
             evs state' yielded' E).
Defined.

Lemma events_do_not_wait_witness :
  let before := firstn 3 sample_patches in
  let rest := skipn 3 sample_patches in
  let r := patch_loop apply_patch first_seen VNone false before in
  (exists evs',
     fst (as_event_stream apply_patch first_seen (before ++ rest))
     = fst r ++ evs') /\
  (forall e, snd r = inl e ->
     as_event_stream apply_patch first_seen (before ++ rest)
     = (fst r, inl e)).
Proof.
  intros before rest r.
  apply (events_do_not_wait apply_patch first_seen before rest (fst r) (snd r)).
  apply surjective_pairing.
Defined.
